(** * ig-follow-checker: handle extraction, comparison, org filter, CSV export

    Shallow embedding of [src/App.tsx] (the same functions appear again in
    [src/instagram_follow_back_checker_client_only.jsx]).

    - A JavaScript string is the list of its UTF-16 code units, each an [N].
    - A [Set<string>] is a [gset] of such lists; the claims below speak of
      membership, union and cardinality only, never of insertion order.
    - [useMemo] and the render body of [App] are pure functions of the two
      text areas and of the toggle; [downloadCSV] returns the file it offers. *)

From Stdlib Require Import NArith ZArith String Ascii List Lia.
From stdpp Require Import base option list sorting gmap sets fin_sets.

Local Open Scope N_scope.
Set Warnings "-clear-no-such-hyp".

(** ** JavaScript strings *)

Module JS.

(** A string value: UTF-16 code units. *)
Abbreviation str := (list N).

(** Code units of an ASCII literal. *)
Fixpoint lit (s : string) : str :=
  match s with
  | EmptyString => []
  | String a r => N_of_ascii a :: lit r
  end.

Definition LF : N := 10.
Definition CR : N := 13.
Definition QUOTE : N := 34.
Definition COMMA : N := 44.

Definition between (lo hi c : N) : bool := (lo <=? c) && (c <=? hi).

(** Unit-wise view of [String.prototype.toLowerCase].  The built-in maps code
    points through the Unicode lower-case tables.  It is rendered exactly on
    every code unit whose image holds a unit below 128: the ASCII range, where
    [A-Z] moves to [a-z] and nothing else changes, U+212A (KELVIN SIGN, to
    [k]) and U+0130 (to [i] followed by U+0307).  Any other unit is sent by the
    built-in to units at or above 128 and is kept as it is here; the callers
    below only look at the units that survive [/[^a-z0-9._]/g], so the two
    agree on everything they compute. *)
Definition lowerUnit (c : N) : str :=
  if between 65 90 c then [c + 32]
  else if c =? 8490 then [107]
  else if c =? 304 then [105; 775]
  else [c].

Definition toLowerCase (s : str) : str := flat_map lowerUnit s.

(** WhiteSpace and LineTerminator of ECMAScript, the units [trim] removes. *)
Definition isWhiteSpace (c : N) : bool :=
  between 9 13 c || (c =? 32) || (c =? 160) || (c =? 5760)
  || between 8192 8202 c || (c =? 8232) || (c =? 8233) || (c =? 8239)
  || (c =? 8287) || (c =? 12288) || (c =? 65279).

Fixpoint trimStart (s : str) : str :=
  match s with
  | [] => []
  | c :: r => if isWhiteSpace c then trimStart r else s
  end.

Definition trimEnd (s : str) : str := rev (trimStart (rev s)).

Definition trim (s : str) : str := trimStart (trimEnd s).

(** [Boolean(s)] for a string: the empty string is the only falsy one. *)
Definition truthy (s : str) : bool :=
  match s with [] => false | _ => true end.

(** [xs.join(sep)]. *)
Fixpoint join (sep : str) (xs : list str) : str :=
  match xs with
  | [] => []
  | [x] => x
  | x :: r => x ++ sep ++ join sep r
  end.

Fixpoint startsWith (k s : str) : bool :=
  match k, s with
  | [], _ => true
  | _ :: _, [] => false
  | a :: k', b :: s' => (a =? b) && startsWith k' s'
  end.

(** [s.includes(k)]. *)
Fixpoint includes (s k : str) : bool :=
  startsWith k s ||
  match s with
  | [] => false
  | _ :: r => includes r k
  end.

(** Put a unit in front of the first piece of a split under construction. *)
Definition consHead (c : N) (ps : list str) : list str :=
  match ps with
  | [] => [[c]]
  | p :: r => (c :: p) :: r
  end.

Definition startsWithLF (s : str) : bool :=
  match s with
  | c :: _ => c =? LF
  | [] => false
  end.

(** [s.split(/\r?\n/)]: every LF ends a piece, and a CR standing directly
    before that LF belongs to the separator. *)
Fixpoint splitLines (s : str) : list str :=
  match s with
  | [] => [[]]
  | c :: r =>
      if c =? LF then [] :: splitLines r
      else if (c =? CR) && startsWithLF r then splitLines r
      else consHead c (splitLines r)
  end.

End JS.

Import JS.

(** ** Handle extraction *)

(** The class [[a-z0-9._]]. *)
Definition isHandleChar (c : N) : bool :=
  between 97 122 c || between 48 57 c || (c =? 46) || (c =? 95).

(** The class [[a-zA-Z0-9._]]. *)
Definition isTokenChar (c : N) : bool :=
  isHandleChar c || between 65 90 c.

(** [s.replace(/[^a-z0-9._]/g, '')]. *)
Definition stripNonHandle (s : str) : str := List.filter isHandleChar s.

(** The normalisation inside [cleanHandleToken], before the length test. *)
Definition normalize (token : str) : str := stripNonHandle (toLowerCase token).

(** [token || ''] is [token] itself, the empty string being the only falsy
    string; [null] is [None]. *)
Definition cleanHandleToken (token : str) : option str :=
  let cleaned := normalize token in
  if (3 <=? length cleaned)%nat && (length cleaned <=? 30)%nat
  then Some cleaned else None.

(** [line.split(/[^a-zA-Z0-9._]+/)]: a maximal run of units outside the token
    class is one separator; [inSep] tells that such a run is being read. *)
Fixpoint splitTokensFrom (inSep : bool) (s : str) : list str :=
  match s with
  | [] => [[]]
  | c :: r =>
      if isTokenChar c then consHead c (splitTokensFrom false r)
      else if inSep then splitTokensFrom true r
      else [] :: splitTokensFrom true r
  end.

Definition splitTokens (s : str) : list str := splitTokensFrom false s.

(** [line.split(...)[0] || '']. *)
Definition firstToken (line : str) : str :=
  match splitTokens line with
  | t :: _ => t
  | [] => []
  end.

(** The path the [forEach] callback takes on a line: it returns after adding
    [whole], or goes on to the first token and adds [cleaned], or adds
    nothing. *)
Inductive LineOutcome :=
| AcceptedWhole (h : str)
| AcceptedFirst (h : str)
| Dropped.

Definition classifyLine (line : str) : LineOutcome :=
  match cleanHandleToken line with
  | Some whole => AcceptedWhole whole
  | None =>
      match cleanHandleToken (firstToken line) with
      | Some cleaned => AcceptedFirst cleaned
      | None => Dropped
      end
  end.

(** One run of the [forEach] callback on the set [out]. *)
Definition processLine (out : gset str) (line : str) : gset str :=
  match classifyLine line with
  | AcceptedWhole h | AcceptedFirst h => out ∪ {[ h ]}
  | Dropped => out
  end.

(** [raw.split(/\r?\n/).map(l => l.trim()).filter(Boolean)]. *)
Definition trimmedLines (raw : str) : list str :=
  List.filter truthy (map trim (splitLines raw)).

Definition extractHandles (raw : str) : gset str :=
  foldl processLine ∅ (trimmedLines raw).

(** ** Set comparison *)

(** [following.forEach(h => { if (!followers.has(h)) nonFollowers.add(h) })]. *)
Definition nonFollowersOf (following followers : gset str) : gset str :=
  filter (λ h, h ∉ followers) following.

(** [followers.forEach(h => { if (!following.has(h)) followersOnly.add(h) })]. *)
Definition followersOnlyOf (following followers : gset str) : gset str :=
  filter (λ h, h ∉ following) followers.

(** [following.forEach(h => { if (followers.has(h)) mutuals.add(h) })]. *)
Definition mutualsOf (following followers : gset str) : gset str :=
  filter (λ h, h ∈ followers) following.

(** The object returned by the [useMemo] callback. *)
Record Memo := {
  following : gset str;
  followers : gset str;
  nonFollowers : gset str;
  followersOnly : gset str;
  mutuals : gset str;
}.

Definition useMemo (followingText followersText : str) : Memo :=
  let following := extractHandles followingText in
  let followers := extractHandles followersText in
  {| following := following;
     followers := followers;
     nonFollowers := nonFollowersOf following followers;
     followersOnly := followersOnlyOf following followers;
     mutuals := mutualsOf following followers |}.

(** ** Org / brand heuristic *)

Definition orgHints : list str :=
  map lit
    ["official"; "inc"; "club"; "school"; "university"; "college"; "gov";
     "news"; "store"; "shop"; "brand"; "team"; "miami"; "umiami"; "herbert";
     "alumni"; "football"; "soccer"; "hockey"; "baseball"; "barstool";
     "daily"; "studio"; "photography"; "kitchen"; "scuba"; "kite";
     "freediving"; "buildon"; "bestparties"; "cornerdeli"; "ifc"]%string.

(** [orgHints.some(k => h.includes(k))]. *)
Definition looksLikeOrg (h : str) : bool :=
  existsb (λ k, includes h k) orgHints.

Definition filterList (filterPeopleOnly : bool) (items : list str) : list str :=
  if filterPeopleOnly then List.filter (λ h, negb (looksLikeOrg h)) items
  else items.

(** ** CSV export *)

(** [arr[i] ?? '']: reading past the end of an array gives [undefined]. *)
Definition orEmpty (arr : list str) (i : nat) : str := default [] (arr !! i).

Definition csvHeader : list str :=
  map lit
    ["you_follow_but_they_dont_follow_you";
     "they_follow_you_but_you_dont_follow";
     "mutuals"]%string.

(** The [rows] array built by [exportCSV]: the header, then the [for] loop. *)
Definition exportRows (nonFollowersArr followersOnlyArr mutualsArr : list str)
  : list (list str) :=
  let maxLen :=
    Nat.max (Nat.max (length nonFollowersArr) (length followersOnlyArr))
            (length mutualsArr) in
  csvHeader ::
  map (λ i, [orEmpty nonFollowersArr i; orEmpty followersOnlyArr i;
             orEmpty mutualsArr i])
      (seq 0 maxLen).

(** The [replace] of [downloadCSV]: every double quote (unit 34) is doubled. *)
Definition doubleQuotes (c : str) : str :=
  flat_map (λ u, if u =? QUOTE then [QUOTE; QUOTE] else [u]) c.

(** The template literal of [downloadCSV]; [c ?? ''] is [c], a row holding
    strings only. *)
Definition quoteField (c : str) : str := [QUOTE] ++ doubleQuotes c ++ [QUOTE].

Definition csvLine (r : list str) : str := join [COMMA] (map quoteField r).

Definition csvText (rows : list (list str)) : str :=
  join [LF] (map csvLine rows).

(** What [downloadCSV] hands to the browser. *)
Record Download := {
  blobText : str;
  blobType : str;
  downloadName : str;
}.

Definition downloadCSV (rows : list (list str)) (filename : str) : Download :=
  {| blobText := csvText rows;
     blobType := lit "text/csv;charset=utf-8;";
     downloadName := filename |}.

Definition defaultFilename : str := lit "ig_compare_results.csv".

(** ** The component *)

Record AppState := {
  followingText : str;
  followersText : str;
  filterPeopleOnly : bool;
}.

(** Everything one render of [App] derives from its state. *)
Record Rendered := {
  memo : Memo;
  followingArr : list str;
  followersArr : list str;
  nonFollowersArr : list str;
  followersOnlyArr : list str;
  mutualsArr : list str;
}.

Section App.

(** [String.prototype.localeCompare] depends on the collation of the host;
    it is a parameter of the component. *)
Variable localeCompare : str → str → Z.

(** The order the comparator [(x, y) => x.localeCompare(y)] asks for. *)
Definition comesFirst (x y : str) : Prop := (localeCompare x y ≤ 0)%Z.

#[local] Instance comesFirst_dec x y : Decision (comesFirst x y) :=
  decide (localeCompare x y ≤ 0)%Z.

(** [Array.from(arr).sort((x, y) => x.localeCompare(y))] on a [Set]. *)
Definition toSorted (arr : gset str) : list str :=
  merge_sort comesFirst (elements arr).

Definition render (st : AppState) : Rendered :=
  let m := useMemo (followingText st) (followersText st) in
  let keep := filterList (filterPeopleOnly st) in
  {| memo := m;
     followingArr := toSorted (following m);
     followersArr := toSorted (followers m);
     nonFollowersArr := keep (toSorted (nonFollowers m));
     followersOnlyArr := keep (toSorted (followersOnly m));
     mutualsArr := keep (toSorted (mutuals m)) |}.

Definition exportCSV (st : AppState) : Download :=
  let r := render st in
  downloadCSV
    (exportRows (nonFollowersArr r) (followersOnlyArr r) (mutualsArr r))
    defaultFilename.

End App.

(** ** What the claims speak of *)

(** The pattern [^[a-z0-9._]{3,30}$]. *)
Definition matchesHandlePattern (h : str) : bool :=
  forallb isHandleChar h && (3 <=? length h)%nat && (length h <=? 30)%nat.

(** The handle a line contributes, if any. *)
Definition acceptedHandle (o : LineOutcome) : option str :=
  match o with
  | AcceptedWhole h | AcceptedFirst h => Some h
  | Dropped => None
  end.

(** [k] occurs in [h] as a contiguous block. *)
Definition occursIn (k h : str) : Prop := ∃ pre post, h = pre ++ k ++ post.

(** Column [j] of a block of rows. *)
Definition column (j : nat) (rows : list (list str)) : list str :=
  map (λ r, orEmpty r j) rows.

(** A column padded with empty strings up to [n] entries. *)
Definition padTo (n : nat) (arr : list str) : list str :=
  arr ++ replicate (n - length arr) [].

(** How a reader of the file undoes the doubling inside a quoted field. *)
Fixpoint undouble (s : str) : str :=
  match s with
  | [] => []
  | c :: r =>
      match r with
      | d :: r' =>
          if (c =? QUOTE) && (d =? QUOTE) then c :: undouble r'
          else c :: undouble r
      | [] => [c]
      end
  end.

(** The columns of the CSV example and the two lines they must give. *)
Definition exampleNonFollowers : list str := [lit "a"].
Definition exampleFollowersOnly : list str := [].
Definition exampleMutuals : list str := [lit "b"; lit "c"].

Definition headerText : str :=
  [QUOTE] ++ lit "you_follow_but_they_dont_follow_you" ++ [QUOTE; COMMA; QUOTE]
  ++ lit "they_follow_you_but_you_dont_follow" ++ [QUOTE; COMMA; QUOTE]
  ++ lit "mutuals" ++ [QUOTE].

Definition row1Text : str :=
  [QUOTE] ++ lit "a" ++ [QUOTE; COMMA; QUOTE; QUOTE; COMMA; QUOTE] ++ lit "b"
  ++ [QUOTE].

Definition row2Text : str :=
  [QUOTE; QUOTE; COMMA; QUOTE; QUOTE; COMMA; QUOTE] ++ lit "c" ++ [QUOTE].

(** The example line of the specification. *)
Definition johnLine : str := lit "John Doe | @john_doe_23".

(** Auxiliary functions of the proofs about [splitLines]. *)

(** Drop one CR at the very end of a piece. *)
Fixpoint chompCR (s : str) : str :=
  match s with
  | [] => []
  | c :: r =>
      match r with
      | [] => if c =? CR then [] else [c]
      | _ :: _ => c :: chompCR r
      end
  end.

(** Apply [f] to the last element only. *)
Fixpoint mapLast {A} (f : A → A) (xs : list A) : list A :=
  match xs with
  | [] => []
  | x :: r =>
      match r with
      | [] => [f x]
      | _ :: _ => x :: mapLast f r
      end
  end.

(** ** State handlers and the [Column] component *)

(** The three [useState('')] / [useState(false)] of [App]. *)
Definition initialState : AppState :=
  {| followingText := []; followersText := []; filterPeopleOnly := false |}.

Definition setFollowingText (value : str) (st : AppState) : AppState :=
  {| followingText := value;
     followersText := followersText st;
     filterPeopleOnly := filterPeopleOnly st |}.

Definition setFollowersText (value : str) (st : AppState) : AppState :=
  {| followingText := followingText st;
     followersText := value;
     filterPeopleOnly := filterPeopleOnly st |}.

Definition setFilterPeopleOnly (checked : bool) (st : AppState) : AppState :=
  {| followingText := followingText st;
     followersText := followersText st;
     filterPeopleOnly := checked |}.

(** What the user can do: type in a text area, tick the box, press Clear. *)
Inductive Event :=
| ChangeFollowing (value : str)
| ChangeFollowers (value : str)
| ChangeFilter (checked : bool)
| ClickClear.

(** The [onChange] and [onClick] handlers of [App]; Clear is
    [setFollowingText(''); setFollowersText('')]. *)
Definition handleEvent (st : AppState) (ev : Event) : AppState :=
  match ev with
  | ChangeFollowing value => setFollowingText value st
  | ChangeFollowers value => setFollowersText value st
  | ChangeFilter checked => setFilterPeopleOnly checked st
  | ClickClear => setFollowersText [] (setFollowingText [] st)
  end.

(** The unit of [@]. *)
Definition AT : N := 64.

(** One [<li key={h}>@{h}</li>]. *)
Record Li := {
  liKey : str;
  liText : str;
}.

(** The inside of the list box of a [Column]. *)
Inductive ColumnBody :=
| NoItems
| ItemList (lis : list Li).

Record ColumnView := {
  colTitle : str;
  colCount : nat;
  colBody : ColumnBody;
}.

Definition Column (title : str) (items : list str) : ColumnView :=
  {| colTitle := title;
     colCount := length items;
     colBody :=
       if (length items =? 0)%nat then NoItems
       else ItemList (map (λ h, {| liKey := h; liText := AT :: h |}) items) |}.

(** The keys React sees below one list box. *)
Definition columnKeys (c : ColumnView) : list str :=
  match colBody c with
  | NoItems => []
  | ItemList lis => map liKey lis
  end.

(** The three [<Column>] of the page, in the order of the source. *)
Definition columns (r : Rendered) : list ColumnView :=
  [ Column (lit "They don" ++ [8217] ++ lit "t follow you back")
      (nonFollowersArr r);
    Column (lit "You don" ++ [8217] ++ lit "t follow them back")
      (followersOnlyArr r);
    Column (lit "Mutuals") (mutualsArr r) ].

(** The five numbers of the [counts] pills. *)
Definition counts (r : Rendered) : list nat :=
  [ length (followingArr r); length (followersArr r);
    length (nonFollowersArr r); length (followersOnlyArr r);
    length (mutualsArr r) ].

(** The rows [exportCSV] passes to [downloadCSV]. *)
Definition exportedRows (r : Rendered) : list (list str) :=
  exportRows (nonFollowersArr r) (followersOnlyArr r) (mutualsArr r).

(** ** Sample inputs *)

Definition longBioLine : str :=
  lit "john_doe_23 | John Doe, photographer and traveller".

Definition atBioLine : str :=
  lit "@john_doe_23 | John Doe, photographer and traveller".

Definition shortLine : str := lit "J - D".

(** A comparator to try the sort with: shorter strings first. *)
Definition byLength (x y : str) : Z :=
  (Z.of_nat (length x) - Z.of_nat (length y))%Z.

Definition sampleRows : list (list str) :=
  [ [lit "name"; lit "note"];
    [lit "bob"; lit "says " ++ [QUOTE] ++ lit "hi, all" ++ [QUOTE]];
    [] ].

(** * Proofs *)

Example trimmedLines_ex :
  trimmedLines (lit "alice" ++ [CR; LF] ++ lit "  BOB!!" ++ [LF; LF] ++ lit "c ")
  = [lit "alice"; lit "BOB!!"; lit "c"].
Proof. reflexivity. Qed.

(** ** The accumulation of [extractHandles] *)

Section Accumulate.

Implicit Types (out : gset str) (line h : str) (ls : list str).

Lemma processLine_union out line :
  processLine out line = out ∪ processLine ∅ line.
Proof.
  unfold processLine. destruct (classifyLine line); set_solver.
Qed.

Lemma foldl_processLine_cons out line ls :
  foldl processLine out (line :: ls)
  = foldl processLine (out ∪ processLine ∅ line) ls.
Proof. simpl. by rewrite processLine_union. Qed.

Lemma foldl_processLine_union out ls :
  foldl processLine out ls = out ∪ foldl processLine ∅ ls.
Proof.
  revert out. induction ls as [|line ls IH]; intros out.
  - simpl. set_solver.
  - rewrite !foldl_processLine_cons, (IH (out ∪ _)), (IH (∅ ∪ _)).
    set_solver.
Qed.

Lemma foldl_processLine_app ls1 ls2 :
  foldl processLine ∅ (ls1 ++ ls2)
  = foldl processLine ∅ ls1 ∪ foldl processLine ∅ ls2.
Proof. by rewrite foldl_app, foldl_processLine_union. Qed.

Lemma elem_of_processLine h out line :
  h ∈ processLine out line ↔
  h ∈ out ∨ acceptedHandle (classifyLine line) = Some h.
Proof.
  unfold processLine. destruct (classifyLine line); simpl.
  - rewrite elem_of_union, elem_of_singleton. naive_solver.
  - rewrite elem_of_union, elem_of_singleton. naive_solver.
  - naive_solver.
Qed.

Lemma elem_of_foldl_processLine h out ls :
  h ∈ foldl processLine out ls ↔
  h ∈ out ∨ ∃ line, line ∈ ls ∧ acceptedHandle (classifyLine line) = Some h.
Proof.
  revert out. induction ls as [|line ls IH]; intros out; simpl.
  - split; [auto|]. intros [?|(l & Hl & _)]; [done|]. by inversion Hl.
  - rewrite IH, elem_of_processLine. split.
    + intros [[?|?]|(l & ? & ?)]; [by left| |].
      * right. exists line. split; [left|done].
      * right. exists l. split; [by right|done].
    + intros [?|(l & Hl & ?)]; [by left; left|].
      apply elem_of_cons in Hl as [->|?]; [by left; right|].
      right. by exists l.
Qed.

Lemma elem_of_extractHandles h raw :
  h ∈ extractHandles raw ↔
  ∃ line, line ∈ trimmedLines raw ∧ acceptedHandle (classifyLine line) = Some h.
Proof.
  unfold extractHandles. rewrite elem_of_foldl_processLine. set_solver.
Qed.

Lemma size_processLine out line :
  (size (processLine out line) ≤ S (size out))%nat.
Proof.
  unfold processLine. destruct (classifyLine line); try lia.
  all: rewrite size_union_alt;
    pose proof (subseteq_size ({[h]} ∖ out) ({[h]} : gset str)) as Hs;
    rewrite size_singleton in Hs; specialize (Hs ltac:(set_solver)); lia.
Qed.

Lemma size_foldl_processLine out ls :
  (size (foldl processLine out ls) ≤ size out + length ls)%nat.
Proof.
  revert out. induction ls as [|line ls IH]; intros out; simpl; [lia|].
  specialize (IH (processLine out line)).
  pose proof (size_processLine out line). lia.
Qed.

End Accumulate.

(** ** Character classes *)

Lemma between_true lo hi c : between lo hi c = true ↔ lo ≤ c ∧ c ≤ hi.
Proof. unfold between. rewrite andb_true_iff, !N.leb_le. tauto. Qed.

Lemma between_false lo hi c : between lo hi c = false ↔ c < lo ∨ hi < c.
Proof. unfold between. rewrite andb_false_iff, !N.leb_gt. tauto. Qed.

Lemma isHandleChar_true c :
  isHandleChar c = true ↔
  (97 ≤ c ∧ c ≤ 122) ∨ (48 ≤ c ∧ c ≤ 57) ∨ c = 46 ∨ c = 95.
Proof.
  unfold isHandleChar.
  rewrite !orb_true_iff, !between_true, !N.eqb_eq. tauto.
Qed.

Lemma isHandleChar_isTokenChar c : isHandleChar c = true → isTokenChar c = true.
Proof. unfold isTokenChar. by intros ->. Qed.

Lemma isHandleChar_not_space c : isHandleChar c = true → isWhiteSpace c = false.
Proof.
  rewrite isHandleChar_true. intros Hc. unfold isWhiteSpace.
  rewrite !orb_false_iff, !between_false, !N.eqb_neq. lia.
Qed.

Lemma lowerUnit_handleChar c : isHandleChar c = true → lowerUnit c = [c].
Proof.
  rewrite isHandleChar_true. intros Hc. unfold lowerUnit.
  assert (between 65 90 c = false) as -> by (apply between_false; lia).
  assert ((c =? 8490) = false) as -> by (apply N.eqb_neq; lia).
  assert ((c =? 304) = false) as -> by (apply N.eqb_neq; lia).
  done.
Qed.

Lemma toLowerCase_handleChars (s : str) :
  forallb isHandleChar s = true → toLowerCase s = s.
Proof.
  unfold toLowerCase. induction s as [|c s IH]; simpl; [done|].
  rewrite andb_true_iff. intros [Hc Hs].
  by rewrite (lowerUnit_handleChar c Hc), (IH Hs).
Qed.

Lemma stripNonHandle_handleChars (s : str) :
  forallb isHandleChar s = true → stripNonHandle s = s.
Proof.
  unfold stripNonHandle. induction s as [|c s IH]; simpl; [done|].
  rewrite andb_true_iff. intros [-> Hs]. by rewrite (IH Hs).
Qed.

Lemma forallb_stripNonHandle (s : str) :
  forallb isHandleChar (stripNonHandle s) = true.
Proof.
  unfold stripNonHandle. induction s as [|c s IH]; simpl; [done|].
  destruct (isHandleChar c) eqn:Hc; simpl; [by rewrite Hc|done].
Qed.

(** ** [cleanHandleToken] *)

Lemma cleanHandleToken_Some token h :
  cleanHandleToken token = Some h ↔
  h = normalize token ∧ (3 ≤ length h ≤ 30)%nat.
Proof.
  unfold cleanHandleToken; cbv zeta.
  destruct (_ && _) eqn:Hlen.
  - apply andb_true_iff in Hlen as [H3%Nat.leb_le H30%Nat.leb_le].
    split; [intros [= <-]; auto | by intros [-> _]].
  - apply andb_false_iff in Hlen as [H3%Nat.leb_gt | H30%Nat.leb_gt];
      (split; [done | intros [-> ?]; lia]).
Qed.

Lemma cleanHandleToken_pattern token h :
  cleanHandleToken token = Some h → matchesHandlePattern h = true.
Proof.
  rewrite cleanHandleToken_Some. intros [-> [H3 H30]].
  unfold matchesHandlePattern, normalize in *.
  rewrite forallb_stripNonHandle, !andb_true_iff, !Nat.leb_le. auto.
Qed.

Lemma matchesHandlePattern_true h :
  matchesHandlePattern h = true ↔
  forallb isHandleChar h = true ∧ (3 ≤ length h ≤ 30)%nat.
Proof.
  unfold matchesHandlePattern.
  rewrite !andb_true_iff, !Nat.leb_le. tauto.
Qed.

Lemma cleanHandleToken_clean h :
  matchesHandlePattern h = true → cleanHandleToken h = Some h.
Proof.
  rewrite matchesHandlePattern_true. intros [Hc Hlen].
  apply cleanHandleToken_Some. split; [|done].
  unfold normalize. by rewrite toLowerCase_handleChars, stripNonHandle_handleChars.
Qed.

Lemma classifyLine_pattern line h :
  acceptedHandle (classifyLine line) = Some h → matchesHandlePattern h = true.
Proof.
  unfold classifyLine.
  destruct (cleanHandleToken line) as [w|] eqn:Hw; simpl.
  - intros [= <-]. by eapply cleanHandleToken_pattern.
  - destruct (cleanHandleToken (firstToken line)) as [f|] eqn:Hf; simpl; [|done].
    intros [= <-]. by eapply cleanHandleToken_pattern.
Qed.

(** ** C1 *)

(** C1.  Whatever the raw text, every string of [extractHandles raw] matches
    [^[a-z0-9._]{3,30}$]: all its units are in [[a-z0-9._]], its length is
    between 3 and 30, and lower-casing leaves it unchanged. *)
Theorem C1_extracted_handles_match_pattern (raw h : str) :
  h ∈ extractHandles raw →
  matchesHandlePattern h = true
  ∧ Forall (λ c, isHandleChar c = true) h
  ∧ (3 ≤ length h ≤ 30)%nat
  ∧ toLowerCase h = h.
Proof.
  intros (line & _ & Hacc)%elem_of_extractHandles.
  apply classifyLine_pattern in Hacc.
  pose proof Hacc as [Hc Hlen]%matchesHandlePattern_true.
  split; [done|]. split; [|split; [done|by apply toLowerCase_handleChars]].
  apply Forall_forall. intros c Hin%list_elem_of_In.
  rewrite forallb_forall in Hc. auto.
Qed.

Lemma C1_witness :
  lit "bob" ∈ extractHandles (lit "alice" ++ [LF] ++ lit "BOB!!" ++ [LF] ++ lit "c")
  ∧ (matchesHandlePattern (lit "bob") = true
     ∧ Forall (λ c, isHandleChar c = true) (lit "bob")
     ∧ (3 ≤ length (lit "bob") ≤ 30)%nat
     ∧ toLowerCase (lit "bob") = lit "bob").
Proof.
  assert (lit "bob"
          ∈ extractHandles (lit "alice" ++ [LF] ++ lit "BOB!!" ++ [LF] ++ lit "c"))
    as Hin by (vm_compute; reflexivity).
  split; [exact Hin|].
  exact (C1_extracted_handles_match_pattern _ _ Hin).
Defined.

(** ** C10 *)

(** C10.  Each line adds at most one handle: the cardinality of
    [extractHandles raw] is at most the number of non-empty trimmed lines. *)
Theorem C10_at_most_one_handle_per_line (raw : str) :
  (size (extractHandles raw) ≤ length (trimmedLines raw))%nat.
Proof.
  unfold extractHandles.
  pose proof (size_foldl_processLine ∅ (trimmedLines raw)) as Hs.
  by rewrite size_empty in Hs.
Qed.

(** ** Splitting into lines *)

Lemma splitLines_nonempty (s : str) : splitLines s ≠ [].
Proof.
  induction s as [|c r IH]; simpl; [done|].
  destruct (c =? LF); [done|].
  destruct ((c =? CR) && startsWithLF r); [done|].
  by destruct (splitLines r).
Qed.

Lemma splitLines_single_empty (s : str) : splitLines s = [[]] → s = [].
Proof.
  destruct s as [|c r]; simpl; [done|].
  pose proof (splitLines_nonempty r) as Hr.
  destruct (c =? LF).
  { destruct (splitLines r); [done|discriminate]. }
  destruct ((c =? CR) && startsWithLF r) eqn:Hcr.
  - apply andb_true_iff in Hcr as [_ Hlf].
    destruct r as [|d r']; simpl in *; [done|]. rewrite Hlf.
    pose proof (splitLines_nonempty r').
    destruct (splitLines r'); [done|discriminate].
  - destruct (splitLines r); [done|discriminate].
Qed.

Lemma splitLines_no_LF (s : str) : LF ∉ s → splitLines s = [s].
Proof.
  induction s as [|c r IH]; [done|].
  intros [Hc Hr]%not_elem_of_cons. simpl.
  assert ((c =? LF) = false) as -> by (apply N.eqb_neq; congruence).
  assert (startsWithLF r = false) as ->.
  { destruct r as [|d r']; simpl; [done|].
    apply N.eqb_neq. intros ->. apply Hr. left. }
  rewrite andb_false_r, (IH Hr). done.
Qed.

Lemma consHead_app c (xs ys : list str) :
  xs ≠ [] → consHead c (xs ++ ys) = consHead c xs ++ ys.
Proof. by destruct xs. Qed.

Lemma mapLast_cons {A} (f : A → A) x (xs : list A) :
  xs ≠ [] → mapLast f (x :: xs) = x :: mapLast f xs.
Proof. by destruct xs. Qed.

Lemma mapLast_nonempty {A} (f : A → A) (xs : list A) :
  xs ≠ [] → mapLast f xs ≠ [].
Proof. destruct xs as [|x [|y r]]; done. Qed.

Lemma mapLast_chompCR_consHead c (ps : list str) :
  ps ≠ [] → (ps = [[]] → c ≠ CR) →
  mapLast chompCR (consHead c ps) = consHead c (mapLast chompCR ps).
Proof.
  destruct ps as [|p [|q r]]; [done| |done].
  intros _ Hc. simpl. destruct p as [|d p']; [|done].
  assert ((c =? CR) = false) as -> by (apply N.eqb_neq; auto).
  done.
Qed.

Lemma startsWithLF_app (a b : str) :
  a ≠ [] → startsWithLF (a ++ b) = startsWithLF a.
Proof. by destruct a. Qed.

(** A LF between two texts separates their pieces; the only trace it leaves
    on the left is that a CR just before it is swallowed. *)
Lemma splitLines_app_LF (a b : str) :
  splitLines (a ++ LF :: b) = mapLast chompCR (splitLines a) ++ splitLines b.
Proof.
  induction a as [|c a IH]; [done|].
  pose proof (splitLines_nonempty a) as Hne.
  change ((c :: a) ++ LF :: b) with (c :: (a ++ LF :: b)).
  simpl splitLines. destruct (c =? LF).
  { rewrite IH, mapLast_cons by done. done. }
  destruct a as [|d a'].
  - simpl. destruct (c =? CR) eqn:Hc; simpl; [by rewrite Hc|by rewrite Hc].
  - rewrite startsWithLF_app by done.
    destruct ((c =? CR) && startsWithLF (d :: a')); [exact IH|].
    rewrite IH, consHead_app by (by apply mapLast_nonempty).
    rewrite mapLast_chompCR_consHead; [done|done|].
    by intros ?%splitLines_single_empty.
Qed.

(** ** Trimming *)

Lemma trimStart_id (s : str) :
  Forall (λ c, isWhiteSpace c = false) s → trimStart s = s.
Proof. destruct 1 as [|c r Hc _]; simpl; [done|by rewrite Hc]. Qed.

Lemma trim_id (s : str) :
  Forall (λ c, isWhiteSpace c = false) s → trim s = s.
Proof.
  intros Hs. unfold trim, trimEnd.
  rewrite (trimStart_id (rev s)) by (by apply Forall_rev).
  rewrite rev_involutive. by apply trimStart_id.
Qed.

Lemma chompCR_snoc (q : str) c :
  chompCR (q ++ [c]) = if c =? CR then q else q ++ [c].
Proof.
  induction q as [|d q IH]; simpl; [done|].
  rewrite IH. destruct (q ++ [c]) eqn:Hq; [by destruct q|].
  by destruct (c =? CR).
Qed.

Lemma trimEnd_chompCR (p : str) : trimEnd (chompCR p) = trimEnd p.
Proof.
  destruct p as [|c q _] using rev_ind; [done|].
  rewrite chompCR_snoc. destruct (N.eqb_spec c CR) as [->|]; [|done].
  unfold trimEnd. by rewrite rev_app_distr.
Qed.

Lemma trim_chompCR (p : str) : trim (chompCR p) = trim p.
Proof. unfold trim. by rewrite trimEnd_chompCR. Qed.

Lemma map_mapLast {A B} (g : A → B) (f : A → A) (xs : list A) :
  (∀ x, g (f x) = g x) → map g (mapLast f xs) = map g xs.
Proof.
  intros Hgf. induction xs as [|x [|y r] IH]; simpl in *; [done| |].
  - by rewrite Hgf.
  - by rewrite IH.
Qed.

(** ** The lines of a text *)

Lemma trimmedLines_app_LF (a b : str) :
  trimmedLines (a ++ LF :: b) = trimmedLines a ++ trimmedLines b.
Proof.
  unfold trimmedLines.
  rewrite splitLines_app_LF, map_app, (map_mapLast trim chompCR), List.filter_app;
    [done|exact trim_chompCR].
Qed.

Lemma trimmedLines_one_line (line : str) :
  LF ∉ line → trim line = line → line ≠ [] → trimmedLines line = [line].
Proof.
  intros Hlf Htrim Hne. unfold trimmedLines.
  rewrite splitLines_no_LF by done. simpl. rewrite Htrim.
  by destruct line.
Qed.

(** ** C9 *)

(** C9.  [extractHandles] turns the concatenation of two texts around a line
    feed into the union of their handle sets. *)
Theorem C9_extractHandles_line_concat (a b : str) :
  extractHandles (a ++ [LF] ++ b) = extractHandles a ∪ extractHandles b.
Proof.
  unfold extractHandles. simpl app.
  by rewrite trimmedLines_app_LF, foldl_processLine_app.
Qed.

(** ** C4 *)

Lemma handle_no_LF (h : str) : forallb isHandleChar h = true → LF ∉ h.
Proof.
  rewrite forallb_forall. intros Hall Hin%list_elem_of_In.
  by apply Hall in Hin.
Qed.

Lemma handle_no_space (h : str) :
  forallb isHandleChar h = true → Forall (λ c, isWhiteSpace c = false) h.
Proof.
  rewrite forallb_forall. intros Hall. apply Forall_forall.
  intros c Hin%list_elem_of_In. by apply isHandleChar_not_space, Hall.
Qed.

Lemma trimmedLines_handle (h : str) :
  matchesHandlePattern h = true → trimmedLines h = [h].
Proof.
  intros [Hc Hlen]%matchesHandlePattern_true.
  apply trimmedLines_one_line.
  - by apply handle_no_LF.
  - by apply trim_id, handle_no_space.
  - intros ->. simpl in Hlen. lia.
Qed.

Lemma trimmedLines_handle_CR (h : str) :
  matchesHandlePattern h = true → trimmedLines (h ++ [CR]) = [h].
Proof.
  intros Hh. pose proof Hh as [Hc Hlen]%matchesHandlePattern_true.
  unfold trimmedLines. rewrite splitLines_no_LF.
  - simpl. rewrite <- (trim_chompCR (h ++ [CR])), chompCR_snoc. simpl.
    rewrite trim_id by (by apply handle_no_space).
    destruct h; [simpl in Hlen; lia|done].
  - rewrite not_elem_of_app, not_elem_of_cons. split; [by apply handle_no_LF|].
    split; [done|apply not_elem_of_nil].
Qed.

(** The two line ends a pasted text can have. *)
Lemma trimmedLines_join_handles (sep : str) (hs : list str) :
  sep = [LF] ∨ sep = [CR; LF] →
  Forall (λ h, matchesHandlePattern h = true) hs →
  trimmedLines (join sep hs) = hs.
Proof.
  intros Hsep. induction 1 as [|h hs Hh Hhs IH]; [done|].
  destruct hs as [|h' hs'].
  - by apply trimmedLines_handle.
  - change (join sep (h :: h' :: hs')) with (h ++ sep ++ join sep (h' :: hs')).
    destruct Hsep as [->| ->].
    + change (h ++ [LF] ++ ?r) with (h ++ LF :: r).
      by rewrite trimmedLines_app_LF, IH, trimmedLines_handle.
    + change (h ++ [CR; LF] ++ ?r) with (h ++ [CR] ++ LF :: r).
      by rewrite app_assoc, trimmedLines_app_LF, IH, trimmedLines_handle_CR.
Qed.

Lemma classifyLine_handle (h : str) :
  matchesHandlePattern h = true → classifyLine h = AcceptedWhole h.
Proof.
  intros Hh. unfold classifyLine. by rewrite cleanHandleToken_clean.
Qed.

Lemma foldl_processLine_handles (out : gset str) (hs : list str) :
  Forall (λ h, matchesHandlePattern h = true) hs →
  foldl processLine out hs = out ∪ list_to_set hs.
Proof.
  intros Hhs. revert out.
  induction Hhs as [|h hs Hh _ IH]; intros out; simpl.
  - set_solver.
  - rewrite IH. unfold processLine. rewrite classifyLine_handle by done.
    set_solver.
Qed.

(** C4.  A text made of valid handles, one per line (lines ended by LF or
    by CR LF), extracts to exactly the set of those handles. *)
Theorem C4_clean_input_extracts_to_itself (sep : str) (hs : list str) :
  sep = [LF] ∨ sep = [CR; LF] →
  Forall (λ h, matchesHandlePattern h = true) hs →
  extractHandles (join sep hs) = list_to_set hs.
Proof.
  intros Hsep Hhs. unfold extractHandles.
  rewrite trimmedLines_join_handles, foldl_processLine_handles by done.
  set_solver.
Qed.

Lemma C4_witness :
  ([LF] = [LF] ∨ [LF] = [CR; LF])
  ∧ Forall (λ h, matchesHandlePattern h = true)
      [lit "alice"; lit "bob_99"; lit "c.d"; lit "alice"]
  ∧ extractHandles (join [LF] [lit "alice"; lit "bob_99"; lit "c.d"; lit "alice"])
    = list_to_set [lit "alice"; lit "bob_99"; lit "c.d"; lit "alice"].
Proof.
  assert (Forall (λ h, matchesHandlePattern h = true)
            [lit "alice"; lit "bob_99"; lit "c.d"; lit "alice"]) as Hhs
    by (repeat constructor).
  split; [by left|]. split; [exact Hhs|].
  exact (C4_clean_input_extracts_to_itself [LF] _ (or_introl eq_refl) Hhs).
Defined.

(** ** C6 *)

(** C6.  A trimmed, non-empty line whose whole-line normalisation has length
    3 to 30 is accepted as that normalisation: the callback takes the first
    [return], so the outcome is never the one of the first-token split,
    whatever [firstToken] would have given, and the line alone extracts to
    exactly that handle. *)
Theorem C6_whole_line_short_circuits (line : str) :
  trim line = line → line ≠ [] → LF ∉ line →
  (3 ≤ length (normalize line) ≤ 30)%nat →
  cleanHandleToken line = Some (normalize line)
  ∧ classifyLine line = AcceptedWhole (normalize line)
  ∧ (∀ out, processLine out line = out ∪ {[ normalize line ]})
  ∧ extractHandles line = {[ normalize line ]}
  ∧ (∀ raw, line ∈ trimmedLines raw → normalize line ∈ extractHandles raw).
Proof.
  intros Htrim Hne Hlf Hlen.
  assert (cleanHandleToken line = Some (normalize line)) as Hw
    by (by apply cleanHandleToken_Some).
  assert (classifyLine line = AcceptedWhole (normalize line)) as Hcl
    by (unfold classifyLine; by rewrite Hw).
  assert (∀ out, processLine out line = out ∪ {[ normalize line ]}) as Hp
    by (intros out; unfold processLine; by rewrite Hcl).
  split; [done|]. split; [done|]. split; [done|]. split.
  - unfold extractHandles. rewrite trimmedLines_one_line by done.
    simpl. rewrite Hp. set_solver.
  - intros raw Hin. apply elem_of_extractHandles.
    exists line. by rewrite Hcl.
Qed.

(** The line [abc def] normalises to [abcdef] although its first token [abc]
    is a valid handle of its own. *)
Example abc_def_first_token :
  cleanHandleToken (firstToken (lit "abc def")) = Some (lit "abc")
  ∧ normalize (lit "abc def") = lit "abcdef".
Proof. split; reflexivity. Qed.

Lemma C6_witness :
  trim (lit "abc def") = lit "abc def"
  ∧ (lit "abc def" ≠ [])
  ∧ (LF ∉ lit "abc def")
  ∧ (3 ≤ length (normalize (lit "abc def")) ≤ 30)%nat
  ∧ (cleanHandleToken (lit "abc def") = Some (normalize (lit "abc def"))
     ∧ classifyLine (lit "abc def") = AcceptedWhole (normalize (lit "abc def"))
     ∧ (∀ out, processLine out (lit "abc def")
               = out ∪ {[ normalize (lit "abc def") ]})
     ∧ extractHandles (lit "abc def") = {[ normalize (lit "abc def") ]}
     ∧ (∀ raw, lit "abc def" ∈ trimmedLines raw →
               normalize (lit "abc def") ∈ extractHandles raw)).
Proof.
  assert (trim (lit "abc def") = lit "abc def") as H1 by reflexivity.
  assert (lit "abc def" ≠ []) as H2 by discriminate.
  assert (LF ∉ lit "abc def") as H3
    by (intros Hin%list_elem_of_In; simpl in Hin; intuition discriminate).
  assert (3 ≤ length (normalize (lit "abc def")) ≤ 30)%nat as H4
    by (simpl; lia).
  exact (conj H1 (conj H2 (conj H3 (conj H4
           (C6_whole_line_short_circuits (lit "abc def") H1 H2 H3 H4))))).
Defined.

(** ** C5 *)

(** C5, as stated, fails: the whole-line normalisation of the example has 18
    units, not 33, the whole-line attempt succeeds, and [john] is not what
    [extractHandles] returns. *)
Lemma C5_counterexample :
  normalize johnLine = lit "johndoejohn_doe_23"
  ∧ length (normalize johnLine) = 18%nat
  ∧ cleanHandleToken johnLine ≠ None
  ∧ extractHandles johnLine ≠ {[ lit "john" ]}
  ∧ lit "john" ∉ extractHandles johnLine.
Proof.
  split; [reflexivity|]. split; [reflexivity|]. split; [discriminate|].
  assert (lit "john" ∉ extractHandles johnLine) as Hnot.
  { rewrite elem_of_extractHandles. intros (line & Hin & Hacc).
    change (trimmedLines johnLine) with [johnLine] in Hin.
    apply list_elem_of_singleton in Hin as ->. discriminate Hacc. }
  split; [|exact Hnot].
  intros Heq. apply Hnot. rewrite Heq. by apply elem_of_singleton.
Qed.

(** C5, amended.  For the line [John Doe | @john_doe_23] the whole-line
    normalisation is [johndoejohn_doe_23], 18 units long, so the whole-line
    attempt succeeds and [extractHandles] returns exactly that handle; the
    first token [John], which would clean to [john], is not used. *)
Theorem C5_john_line_whole_line_accepted :
  cleanHandleToken johnLine = Some (lit "johndoejohn_doe_23")
  ∧ length (lit "johndoejohn_doe_23") = 18%nat
  ∧ classifyLine johnLine = AcceptedWhole (lit "johndoejohn_doe_23")
  ∧ extractHandles johnLine = {[ lit "johndoejohn_doe_23" ]}
  ∧ firstToken johnLine = lit "John"
  ∧ cleanHandleToken (firstToken johnLine) = Some (lit "john").
Proof.
  assert (classifyLine johnLine = AcceptedWhole (lit "johndoejohn_doe_23"))
    as Hcl by reflexivity.
  split; [reflexivity|]. split; [reflexivity|]. split; [exact Hcl|].
  split; [|split; reflexivity].
  unfold extractHandles.
  change (trimmedLines johnLine) with [johnLine]. simpl foldl.
  unfold processLine. rewrite Hcl. set_solver.
Qed.

(** ** C2 and C3 *)

Section Comparator.

Implicit Types A B : gset str.

Lemma elem_of_nonFollowersOf h A B : h ∈ nonFollowersOf A B ↔ h ∈ A ∧ h ∉ B.
Proof. unfold nonFollowersOf. rewrite elem_of_filter. tauto. Qed.

Lemma elem_of_followersOnlyOf h A B : h ∈ followersOnlyOf A B ↔ h ∈ B ∧ h ∉ A.
Proof. unfold followersOnlyOf. rewrite elem_of_filter. tauto. Qed.

Lemma elem_of_mutualsOf h A B : h ∈ mutualsOf A B ↔ h ∈ A ∧ h ∈ B.
Proof. unfold mutualsOf. rewrite elem_of_filter. tauto. Qed.

End Comparator.

(** C2.  The three computed sets are pairwise disjoint; non-followers and
    mutuals make up Following, followers-only and mutuals make up Followers. *)
Theorem C2_comparison_partitions (A B : gset str) :
  nonFollowersOf A B ∩ followersOnlyOf A B = ∅
  ∧ nonFollowersOf A B ∩ mutualsOf A B = ∅
  ∧ followersOnlyOf A B ∩ mutualsOf A B = ∅
  ∧ nonFollowersOf A B ∪ mutualsOf A B = A
  ∧ followersOnlyOf A B ∪ mutualsOf A B = B.
Proof.
  repeat split; apply set_eq; intros h;
    rewrite ?elem_of_intersection, ?elem_of_union, ?elem_of_nonFollowersOf,
      ?elem_of_followersOnlyOf, ?elem_of_mutualsOf, ?elem_of_empty;
    destruct (decide (h ∈ A)), (decide (h ∈ B)); tauto.
Qed.

(** C3.  Swapping the two inputs keeps the mutuals and turns non-followers
    into followers-only. *)
Theorem C3_comparison_symmetry (A B : gset str) :
  mutualsOf A B = mutualsOf B A
  ∧ nonFollowersOf A B = followersOnlyOf B A.
Proof.
  split; apply set_eq; intros h;
    rewrite ?elem_of_nonFollowersOf, ?elem_of_followersOnlyOf,
      ?elem_of_mutualsOf; tauto.
Qed.

Lemma useMemo_sets (followingText followersText : str) :
  let m := useMemo followingText followersText in
  following m = extractHandles followingText
  ∧ followers m = extractHandles followersText
  ∧ nonFollowers m = nonFollowersOf (following m) (followers m)
  ∧ followersOnly m = followersOnlyOf (following m) (followers m)
  ∧ mutuals m = mutualsOf (following m) (followers m).
Proof. done. Qed.

(** ** The org heuristic *)

Lemma startsWith_true (k s : str) :
  startsWith k s = true ↔ ∃ post, s = k ++ post.
Proof.
  revert s. induction k as [|a k IH]; intros s; simpl.
  - split; [eauto|done].
  - destruct s as [|b s].
    + split; [done|]. by intros [post ?].
    + rewrite andb_true_iff, N.eqb_eq, IH. split.
      * intros [-> [post ->]]. by exists post.
      * intros [post [= -> ->]]. eauto.
Qed.

Lemma includes_true (s k : str) : includes s k = true ↔ occursIn k s.
Proof.
  unfold occursIn. induction s as [|c s IH].
  - simpl. rewrite orb_false_r, startsWith_true. split.
    + intros [post ->]. by exists [], post.
    + intros (pre & post & H). symmetry in H.
      apply app_eq_nil in H as [-> H]. exists post. by rewrite H.
  - cbn [includes]. rewrite orb_true_iff, startsWith_true, IH. split.
    + intros [[post ->]|(pre & post & ->)].
      * by exists [], post.
      * by exists (c :: pre), post.
    + intros ([|d pre] & post & H).
      * left. by exists post.
      * right. injection H as _ ->. by exists pre, post.
Qed.

Lemma looksLikeOrg_true (h : str) :
  looksLikeOrg h = true ↔ ∃ k, k ∈ orgHints ∧ occursIn k h.
Proof.
  unfold looksLikeOrg. rewrite existsb_exists.
  split; intros (k & Hk & Hin); exists k.
  - by rewrite list_elem_of_In, <- includes_true.
  - by rewrite <- list_elem_of_In, includes_true.
Qed.

(** ** C8 *)

(** C8.  [looksLikeOrg h] holds exactly when one of the fixed hints occurs in
    [h]; [bookclub99] is such a handle (hint [club]), it is removed from a
    displayed list when the toggle is on and kept when it is off; and the
    toggle reaches nothing but the three displayed lists: the object of
    [useMemo] (Following, Followers and the three comparison sets) and the two
    sorted input lists are the same for both positions, and each displayed
    list with the toggle on is the one with the toggle off without the
    handles that look like an org. *)
Theorem C8_org_filter_frame (localeCompare : str → str → Z) :
  (∀ h, looksLikeOrg h = true ↔ ∃ k, k ∈ orgHints ∧ occursIn k h)
  ∧ (lit "club" ∈ orgHints ∧ occursIn (lit "club") (lit "bookclub99")
     ∧ looksLikeOrg (lit "bookclub99") = true
     ∧ filterList true [lit "amy"; lit "bookclub99"; lit "zed"]
       = [lit "amy"; lit "zed"]
     ∧ filterList false [lit "amy"; lit "bookclub99"; lit "zed"]
       = [lit "amy"; lit "bookclub99"; lit "zed"])
  ∧ (∀ ft fr,
       let on := render localeCompare
                   {| followingText := ft; followersText := fr;
                      filterPeopleOnly := true |} in
       let off := render localeCompare
                    {| followingText := ft; followersText := fr;
                       filterPeopleOnly := false |} in
       memo on = memo off
       ∧ following (memo on) = extractHandles ft
       ∧ followers (memo on) = extractHandles fr
       ∧ followingArr on = followingArr off
       ∧ followersArr on = followersArr off
       ∧ nonFollowersArr off = toSorted localeCompare (nonFollowers (memo off))
       ∧ followersOnlyArr off = toSorted localeCompare (followersOnly (memo off))
       ∧ mutualsArr off = toSorted localeCompare (mutuals (memo off))
       ∧ nonFollowersArr on
         = List.filter (λ h, negb (looksLikeOrg h)) (nonFollowersArr off)
       ∧ followersOnlyArr on
         = List.filter (λ h, negb (looksLikeOrg h)) (followersOnlyArr off)
       ∧ mutualsArr on
         = List.filter (λ h, negb (looksLikeOrg h)) (mutualsArr off)).
Proof.
  split; [exact looksLikeOrg_true|]. split.
  - split; [|split; [|repeat split; reflexivity]].
    + apply list_elem_of_In. vm_compute. tauto.
    + by exists (lit "book"), (lit "99").
  - intros ft fr. cbv zeta. repeat split; reflexivity.
Qed.

(** ** CSV export *)

Lemma map_orEmpty_seq (arr : list str) (n : nat) :
  (length arr ≤ n)%nat → map (orEmpty arr) (seq 0 n) = padTo n arr.
Proof.
  unfold padTo. revert n. induction arr as [|x arr IH]; intros n Hn.
  - rewrite Nat.sub_0_r. simpl. clear Hn.
    generalize 0%nat. induction n as [|n IHn]; intros k; simpl; [done|].
    by rewrite IHn.
  - destruct n as [|n]; simpl in Hn; [lia|].
    simpl. f_equal. rewrite <- seq_shift, map_map. simpl.
    apply IH. lia.
Qed.

Lemma column_exportRows_data (f : nat → list str) (j : nat) (ixs : list nat) :
  column j (map f ixs) = map (λ i, orEmpty (f i) j) ixs.
Proof. unfold column. by rewrite map_map. Qed.

Lemma undouble_doubleQuotes (c : str) : undouble (doubleQuotes c) = c.
Proof.
  unfold doubleQuotes. induction c as [|x c IH]; [done|].
  cbn [flat_map]. destruct (N.eqb_spec x QUOTE) as [->|Hx].
  - cbn. by rewrite IH.
  - cbn [app undouble]. destruct (flat_map _ c) as [|d r] eqn:Hd.
    + simpl in IH. by rewrite <- IH.
    + assert ((x =? QUOTE) = false) as -> by (by apply N.eqb_neq).
      simpl andb. cbv iota. by rewrite IH.
Qed.

Lemma doubleQuotes_app (a b : str) :
  doubleQuotes (a ++ b) = doubleQuotes a ++ doubleQuotes b.
Proof. unfold doubleQuotes. apply flat_map_app. Qed.

(** C7.  [exportCSV] builds the header and then as many rows as the longest
    of the three columns; the columns of these rows, in the order
    non-followers, followers-only, mutuals, are the given columns padded with
    empty strings; every field is written between two double quotes with the
    quotes inside it doubled (so that a reader gets the field back); lines
    are joined by LF and fields by commas.  For the columns [a], nothing and
    [b, c] the file has exactly two lines after the header, the two expected
    ones. *)
Theorem C7_csv_export :
  (∀ nf fo mu : list str,
     let n := Nat.max (Nat.max (length nf) (length fo)) (length mu) in
     ∃ data,
       exportRows nf fo mu = csvHeader :: data
       ∧ length data = n
       ∧ Forall (λ r, length r = 3%nat) data
       ∧ column 0 data = padTo n nf
       ∧ column 1 data = padTo n fo
       ∧ column 2 data = padTo n mu)
  ∧ (∀ c : str,
       quoteField c = [QUOTE] ++ doubleQuotes c ++ [QUOTE]
       ∧ undouble (doubleQuotes c) = c)
  ∧ doubleQuotes [QUOTE] = [QUOTE; QUOTE]
  ∧ (∀ a b, doubleQuotes (a ++ b) = doubleQuotes a ++ doubleQuotes b)
  ∧ (∀ rows filename,
       blobText (downloadCSV rows filename)
       = join [LF] (map (λ r, join [COMMA] (map quoteField r)) rows))
  ∧ exportRows exampleNonFollowers exampleFollowersOnly exampleMutuals
    = [csvHeader; [lit "a"; []; lit "b"]; [[]; []; lit "c"]]
  ∧ map csvLine
      (exportRows exampleNonFollowers exampleFollowersOnly exampleMutuals)
    = [headerText; row1Text; row2Text]
  ∧ blobText
      (downloadCSV
         (exportRows exampleNonFollowers exampleFollowersOnly exampleMutuals)
         defaultFilename)
    = headerText ++ [LF] ++ row1Text ++ [LF] ++ row2Text.
Proof.
  split.
  { intros nf fo mu n. unfold exportRows. fold n.
    eexists. split; [reflexivity|].
    split; [by rewrite length_map, length_seq|].
    split; [apply Forall_forall; intros r (i & -> & _)%list_elem_of_fmap; done|].
    rewrite !column_exportRows_data. simpl.
    repeat split; apply map_orEmpty_seq; lia. }
  split; [intros c; split; [done|apply undouble_doubleQuotes]|].
  split; [done|]. split; [exact doubleQuotes_app|].
  split; [done|].
  repeat split; reflexivity.
Qed.

(** ** Sanity of the string model *)

Lemma exportCSV_download (localeCompare : str → str → Z) (st : AppState) :
  let r := render localeCompare st in
  blobText (exportCSV localeCompare st)
  = csvText (exportRows (nonFollowersArr r) (followersOnlyArr r) (mutualsArr r))
  ∧ downloadName (exportCSV localeCompare st) = lit "ig_compare_results.csv".
Proof. done. Qed.

(** The worked example of the specification: Following [alice, BOB!!, c],
    Followers [alice, bob, carol]. *)
Example spec_example_comparison :
  let m := useMemo (lit "alice" ++ [LF] ++ lit "BOB!!" ++ [LF] ++ lit "c")
                   (lit "alice" ++ [LF] ++ lit "bob" ++ [LF] ++ lit "carol") in
  following m = {[ lit "alice"; lit "bob" ]}
  ∧ followers m = {[ lit "alice"; lit "bob"; lit "carol" ]}
  ∧ nonFollowers m = ∅
  ∧ followersOnly m = {[ lit "carol" ]}
  ∧ mutuals m = {[ lit "alice"; lit "bob" ]}.
Proof. cbv zeta. repeat split; vm_compute; reflexivity. Qed.

Lemma splitLines_pieces_no_LF (s : str) : Forall (λ p, LF ∉ p) (splitLines s).
Proof.
  induction s as [|c r IH]; simpl.
  - repeat constructor. apply not_elem_of_nil.
  - destruct (N.eqb_spec c LF) as [->|Hc].
    { constructor; [apply not_elem_of_nil|done]. }
    destruct ((c =? CR) && startsWithLF r); [done|].
    destruct IH as [|p ps Hp Hps]; simpl.
    + repeat constructor. rewrite not_elem_of_cons. split; [done|apply not_elem_of_nil].
    + constructor; [|done]. rewrite not_elem_of_cons. split; [congruence|done].
Qed.

Lemma trimStart_suffix (s : str) : ∃ pre, s = pre ++ trimStart s.
Proof.
  induction s as [|c r [pre IH]]; simpl; [by exists []|].
  destruct (isWhiteSpace c); [|by exists []].
  exists (c :: pre). simpl. by rewrite <- IH.
Qed.

Lemma trimStart_head (s : str) :
  trimStart s = [] ∨ ∃ c r, trimStart s = c :: r ∧ isWhiteSpace c = false.
Proof.
  induction s as [|c r IH]; simpl; [by left|].
  destruct (isWhiteSpace c) eqn:Hc; [done|]. right. by exists c, r.
Qed.

Lemma trimStart_idemp (s : str) : trimStart (trimStart s) = trimStart s.
Proof.
  destruct (trimStart_head s) as [->|(c & r & -> & Hc)]; [done|].
  simpl. by rewrite Hc.
Qed.

Lemma trimStart_fixed_head (c : N) (r : str) :
  trimStart (c :: r) = c :: r → isWhiteSpace c = false.
Proof.
  simpl. destruct (isWhiteSpace c); [|done].
  intros Heq. destruct (trimStart_suffix r) as [pre Hpre].
  rewrite Heq in Hpre. apply (f_equal length) in Hpre.
  rewrite length_app in Hpre. simpl in Hpre. lia.
Qed.

Lemma trimEnd_trimStart (x : str) :
  trimEnd x = x → trimEnd (trimStart x) = trimStart x.
Proof.
  unfold trimEnd. intros Hx.
  assert (trimStart (rev x) = rev x) as Hrev
    by (apply (f_equal (@rev N)) in Hx; by rewrite rev_involutive in Hx).
  destruct (trimStart_suffix x) as [pre Hpre].
  destruct (trimStart x) as [|c y] eqn:Hy using rev_ind; [done|].
  clear IHy. rewrite Hpre, rev_app_distr, rev_app_distr in Hrev. simpl in Hrev.
  apply trimStart_fixed_head in Hrev.
  rewrite rev_app_distr. simpl. rewrite Hrev. simpl.
  by rewrite rev_involutive.
Qed.

Lemma trimEnd_idemp (s : str) : trimEnd (trimEnd s) = trimEnd s.
Proof. unfold trimEnd. by rewrite rev_involutive, trimStart_idemp. Qed.

Lemma trim_idemp (s : str) : trim (trim s) = trim s.
Proof.
  unfold trim.
  by rewrite (trimEnd_trimStart (trimEnd s)), trimStart_idemp
    by apply trimEnd_idemp.
Qed.

Lemma elem_of_trim (c : N) (s : str) : c ∈ trim s → c ∈ s.
Proof.
  rewrite !list_elem_of_In. unfold trim, trimEnd. intros Hc.
  destruct (trimStart_suffix (rev (trimStart (rev s)))) as [pre Hpre].
  assert (In c (rev (trimStart (rev s)))) as Hc'
    by (rewrite Hpre; apply in_or_app; by right).
  apply in_rev in Hc'.
  destruct (trimStart_suffix (rev s)) as [pre' Hpre'].
  apply in_rev. rewrite Hpre'. apply in_or_app. by right.
Qed.

(** The strings the [forEach] callback can be called with. *)
Lemma trimmedLines_wf (raw line : str) :
  line ∈ trimmedLines raw → trim line = line ∧ line ≠ [] ∧ LF ∉ line.
Proof.
  unfold trimmedLines. rewrite list_elem_of_In, filter_In, in_map_iff.
  intros [(p & <- & Hp) Hne].
  split; [apply trim_idemp|]. split; [by destruct (trim p)|].
  intros Hin%elem_of_trim.
  pose proof (splitLines_pieces_no_LF raw) as Hall.
  rewrite Forall_forall in Hall. by apply (Hall p); [apply list_elem_of_In|].
Qed.

(** The first piece of the token split is the longest prefix of the line
    inside [[a-zA-Z0-9._]]. *)
Lemma firstToken_prefix (line : str) :
  ∃ rest, line = firstToken line ++ rest
    ∧ forallb isTokenChar (firstToken line) = true
    ∧ (rest = [] ∨ ∃ c r, rest = c :: r ∧ isTokenChar c = false).
Proof.
  unfold firstToken, splitTokens.
  induction line as [|c r (rest & Hr & Hall & Hrest)]; simpl.
  - exists []. auto.
  - destruct (isTokenChar c) eqn:Hc.
    + exists rest.
      destruct (splitTokensFrom false r) as [|t ts]; simpl in *;
        rewrite Hc; subst r; auto.
    + exists (c :: r). split; [done|]. split; [done|]. right. by exists c, r.
Qed.

(** * Further properties of the code *)

(** ** Cleaning one token *)

Lemma normalize_app (a b : str) : normalize (a ++ b) = normalize a ++ normalize b.
Proof.
  unfold normalize, stripNonHandle, toLowerCase.
  by rewrite flat_map_app, List.filter_app.
Qed.

Lemma cleanHandleToken_None (token : str) :
  cleanHandleToken token = None ↔
  (length (normalize token) < 3 ∨ 30 < length (normalize token))%nat.
Proof.
  unfold cleanHandleToken; cbv zeta.
  destruct (_ && _) eqn:Hlen.
  - apply andb_true_iff in Hlen as [H3%Nat.leb_le H30%Nat.leb_le].
    split; [done|lia].
  - apply andb_false_iff in Hlen as [H3%Nat.leb_gt | H30%Nat.leb_gt];
      (split; [lia|done]).
Qed.

Lemma lowerUnit_idemp (c : N) : flat_map lowerUnit (lowerUnit c) = lowerUnit c.
Proof.
  unfold lowerUnit at 2 3.
  destruct (between 65 90 c) eqn:Hup.
  { apply between_true in Hup. simpl. rewrite app_nil_r. unfold lowerUnit.
    assert (between 65 90 (c + 32) = false) as -> by (apply between_false; lia).
    assert ((c + 32 =? 8490) = false) as -> by (apply N.eqb_neq; lia).
    assert ((c + 32 =? 304) = false) as -> by (apply N.eqb_neq; lia).
    done. }
  destruct (c =? 8490) eqn:Hk; [done|].
  destruct (c =? 304) eqn:Hi; [done|].
  simpl. rewrite app_nil_r. unfold lowerUnit. by rewrite Hup, Hk, Hi.
Qed.

Lemma toLowerCase_idemp (s : str) : toLowerCase (toLowerCase s) = toLowerCase s.
Proof.
  unfold toLowerCase. induction s as [|c s IH]; [done|].
  simpl. by rewrite flat_map_app, lowerUnit_idemp, IH.
Qed.

(** X1.  [cleanHandleToken] does not see the case of its argument, and what it
    returns is a fixed point: cleaning a cleaned handle gives it back. *)
Theorem cleanHandleToken_case_and_idempotent (token : str) :
  cleanHandleToken (toLowerCase token) = cleanHandleToken token
  ∧ ∀ h, cleanHandleToken token = Some h → cleanHandleToken h = Some h.
Proof.
  split.
  - unfold cleanHandleToken, normalize. by rewrite toLowerCase_idemp.
  - intros h Hh. by eapply cleanHandleToken_clean, cleanHandleToken_pattern.
Qed.

(** ** The two attempts on a line *)

Lemma firstToken_normalize (line : str) :
  ∃ rest, normalize line = normalize (firstToken line) ++ rest.
Proof.
  destruct (firstToken_prefix line) as (rest & Hline & _).
  exists (normalize rest). by rewrite Hline at 1; rewrite normalize_app.
Qed.

(** X2.  The first-token attempt only ever decides for a line whose whole-line
    cleaning is longer than 30 units, and the handle it then accepts is the
    beginning of that cleaning. *)
Theorem first_token_only_for_long_lines (line h : str) :
  classifyLine line = AcceptedFirst h →
  (30 < length (normalize line))%nat
  ∧ h = normalize (firstToken line)
  ∧ ∃ rest, normalize line = h ++ rest.
Proof.
  unfold classifyLine.
  destruct (cleanHandleToken line) eqn:Hw; [done|].
  destruct (cleanHandleToken (firstToken line)) as [f|] eqn:Hf; [|done].
  intros [= <-].
  apply cleanHandleToken_Some in Hf as [-> Hlen].
  apply cleanHandleToken_None in Hw.
  destruct (firstToken_normalize line) as [rest Hrest].
  split; [|split; [done|by exists rest]].
  rewrite Hrest, length_app in *. lia.
Qed.

Lemma first_token_only_for_long_lines_witness :
  classifyLine longBioLine = AcceptedFirst (lit "john_doe_23")
  ∧ ((30 < length (normalize longBioLine))%nat
     ∧ lit "john_doe_23" = normalize (firstToken longBioLine)
     ∧ ∃ rest, normalize longBioLine = lit "john_doe_23" ++ rest).
Proof.
  assert (classifyLine longBioLine = AcceptedFirst (lit "john_doe_23")) as H
    by reflexivity.
  exact (conj H (first_token_only_for_long_lines _ _ H)).
Defined.

(** X3.  A line with fewer than three units of [[a-z0-9._]] after lower-casing adds
    nothing to the set: both attempts fail. *)
Theorem short_line_is_dropped (line : str) :
  (length (normalize line) < 3)%nat →
  classifyLine line = Dropped ∧ ∀ out, processLine out line = out.
Proof.
  intros Hlen.
  assert (classifyLine line = Dropped) as Hcl.
  { unfold classifyLine.
    assert (cleanHandleToken line = None) as ->
      by (apply cleanHandleToken_None; lia).
    destruct (firstToken_normalize line) as [rest Hrest].
    assert (cleanHandleToken (firstToken line) = None) as ->; [|done].
    apply cleanHandleToken_None. rewrite Hrest, length_app in Hlen. lia. }
  split; [done|]. intros out. unfold processLine. by rewrite Hcl.
Qed.

Lemma short_line_is_dropped_witness :
  (length (normalize shortLine) < 3)%nat
  ∧ (classifyLine shortLine = Dropped ∧ ∀ out, processLine out shortLine = out).
Proof.
  assert (length (normalize shortLine) < 3)%nat as H by (simpl; lia).
  exact (conj H (short_line_is_dropped _ H)).
Defined.

Lemma firstToken_leading_separator (c : N) (r : str) :
  isTokenChar c = false → firstToken (c :: r) = [].
Proof. unfold firstToken, splitTokens. simpl. by intros ->. Qed.

(** X4.  When a line begins with a unit outside [[a-zA-Z0-9._]] (an [@], say), the
    first piece of the split is empty, so a line that is not accepted as a
    whole is dropped, whatever follows. *)
Theorem leading_separator_line_is_dropped (c : N) (r : str) :
  isTokenChar c = false →
  cleanHandleToken (c :: r) = None →
  classifyLine (c :: r) = Dropped.
Proof.
  intros Hc Hw. unfold classifyLine.
  by rewrite Hw, firstToken_leading_separator.
Qed.

Lemma leading_separator_line_is_dropped_witness :
  isTokenChar AT = false
  ∧ cleanHandleToken atBioLine = None
  ∧ classifyLine atBioLine = Dropped.
Proof.
  assert (isTokenChar AT = false) as H1 by reflexivity.
  assert (cleanHandleToken atBioLine = None) as H2 by reflexivity.
  exact (conj H1 (conj H2
    (leading_separator_line_is_dropped AT
       (lit "john_doe_23 | John Doe, photographer and traveller") H1 H2))).
Defined.

(** ** Whole texts *)

Lemma splitLines_Forall (P : N → Prop) (s : str) :
  Forall P s → Forall (Forall P) (splitLines s).
Proof.
  induction 1 as [|c r Hc Hr IH]; simpl; [by repeat constructor|].
  destruct (c =? LF); [by constructor|].
  destruct ((c =? CR) && startsWithLF r); [done|].
  destruct IH as [|p ps Hp Hps]; simpl; repeat constructor; done.
Qed.

Lemma trimStart_all_space (s : str) :
  Forall (λ c, isWhiteSpace c = true) s → trimStart s = [].
Proof. induction 1 as [|c r Hc _ IH]; simpl; [done|by rewrite Hc]. Qed.

Lemma trim_all_space (s : str) :
  Forall (λ c, isWhiteSpace c = true) s → trim s = [].
Proof.
  intros Hs. unfold trim, trimEnd.
  by rewrite (trimStart_all_space (rev s)) by (by apply Forall_rev).
Qed.

(** X5.  A text made of white space and line ends only, the empty text among
    them, has no lines for the callback and extracts to the empty set. *)
Theorem blank_text_extracts_nothing (raw : str) :
  Forall (λ c, isWhiteSpace c = true) raw →
  trimmedLines raw = [] ∧ extractHandles raw = ∅.
Proof.
  intros Hraw.
  assert (trimmedLines raw = []) as Hl.
  { unfold trimmedLines.
    pose proof (splitLines_Forall _ raw Hraw) as Hps.
    induction Hps as [|p ps Hp _ IH]; simpl; [done|].
    by rewrite (trim_all_space p Hp). }
  split; [done|]. unfold extractHandles. by rewrite Hl.
Qed.

Lemma blank_text_extracts_nothing_witness :
  Forall (λ c, isWhiteSpace c = true) (lit "  " ++ [CR; LF; 9; LF; 160])
  ∧ trimmedLines (lit "  " ++ [CR; LF; 9; LF; 160]) = []
  ∧ extractHandles (lit "  " ++ [CR; LF; 9; LF; 160]) = ∅.
Proof.
  assert (Forall (λ c, isWhiteSpace c = true) (lit "  " ++ [CR; LF; 9; LF; 160]))
    as H by (repeat constructor).
  exact (conj H (blank_text_extracts_nothing _ H)).
Defined.

Lemma foldl_processLine_lines_of (blocks : list str) :
  trimmedLines (join [LF] blocks) = concat (map trimmedLines blocks).
Proof.
  induction blocks as [|b [|b' r] IH]; [done| |].
  - simpl. by rewrite app_nil_r.
  - change (join [LF] (b :: b' :: r)) with (b ++ LF :: join [LF] (b' :: r)).
    by rewrite trimmedLines_app_LF, IH.
Qed.

Lemma extractHandles_join (blocks : list str) :
  extractHandles (join [LF] blocks) = ⋃ (extractHandles <$> blocks).
Proof.
  unfold extractHandles. rewrite foldl_processLine_lines_of.
  induction blocks as [|b r IH]; [done|].
  simpl. by rewrite foldl_processLine_app, IH.
Qed.

(** X6.  Texts put one under the other extract to the union of what each
    extracts; so neither the order in which blocks are pasted nor pasting a
    block twice changes the result. *)
Theorem extractHandles_of_pasted_blocks (blocks : list str) :
  extractHandles (join [LF] blocks) = ⋃ (extractHandles <$> blocks)
  ∧ ∀ blocks' : list str,
      (∀ b, b ∈ blocks ↔ b ∈ blocks') →
      extractHandles (join [LF] blocks') = extractHandles (join [LF] blocks).
Proof.
  split; [apply extractHandles_join|].
  intros blocks' Hsame. rewrite !extractHandles_join.
  apply set_eq. intros h. rewrite !elem_of_union_list.
  split; intros (X & (b & -> & Hb)%list_elem_of_fmap & Hh);
    exists (extractHandles b); (split; [|done]);
    apply list_elem_of_fmap; exists b; (split; [done|]); by apply Hsame.
Qed.

Lemma splitLines_snoc_CR (a : str) :
  splitLines (a ++ [CR]) = mapLast (λ p, p ++ [CR]) (splitLines a).
Proof.
  induction a as [|c a IH]; [done|].
  pose proof (splitLines_nonempty a) as Hne.
  change ((c :: a) ++ [CR]) with (c :: (a ++ [CR])). simpl splitLines.
  assert (startsWithLF (a ++ [CR]) = startsWithLF a) as ->
    by (by destruct a).
  destruct (c =? LF); [by rewrite IH, mapLast_cons|].
  destruct ((c =? CR) && startsWithLF a); [done|].
  rewrite IH. by destruct (splitLines a) as [|p [|q r]].
Qed.

Lemma trim_snoc_CR (p : str) : trim (p ++ [CR]) = trim p.
Proof. unfold trim, trimEnd. by rewrite rev_app_distr. Qed.

Lemma trimmedLines_snoc_CR (a : str) : trimmedLines (a ++ [CR]) = trimmedLines a.
Proof.
  unfold trimmedLines.
  by rewrite splitLines_snoc_CR, (map_mapLast trim) by apply trim_snoc_CR.
Qed.

(** X7.  Windows line ends are read like Unix ones: a CR LF between two texts
    gives what a LF gives. *)
Theorem crlf_reads_as_lf (a b : str) :
  trimmedLines (a ++ [CR; LF] ++ b) = trimmedLines (a ++ [LF] ++ b)
  ∧ extractHandles (a ++ [CR; LF] ++ b) = extractHandles (a ++ [LF] ++ b).
Proof.
  assert (trimmedLines (a ++ [CR; LF] ++ b) = trimmedLines (a ++ [LF] ++ b))
    as Hl.
  { change (a ++ [CR; LF] ++ b) with (a ++ [CR] ++ LF :: b).
    change (a ++ [LF] ++ b) with (a ++ LF :: b).
    by rewrite app_assoc, !trimmedLines_app_LF, trimmedLines_snoc_CR. }
  split; [done|]. unfold extractHandles. by rewrite Hl.
Qed.

(** X8.  The strings the callback of [extractHandles] is run on have no white
    space at either end, are not empty and hold no LF. *)
Theorem callback_lines_are_trimmed (raw line : str) :
  line ∈ trimmedLines raw →
  trim line = line ∧ line ≠ [] ∧ LF ∉ line.
Proof. apply trimmedLines_wf. Qed.

Lemma callback_lines_are_trimmed_witness :
  lit "BOB!!" ∈ trimmedLines (lit " alice" ++ [CR; LF] ++ lit "  BOB!! " ++ [LF])
  ∧ (trim (lit "BOB!!") = lit "BOB!!" ∧ lit "BOB!!" ≠ [] ∧ LF ∉ lit "BOB!!").
Proof.
  assert (lit "BOB!!"
          ∈ trimmedLines (lit " alice" ++ [CR; LF] ++ lit "  BOB!! " ++ [LF]))
    as H by (apply list_elem_of_In; simpl; tauto).
  exact (conj H (callback_lines_are_trimmed _ _ H)).
Defined.

(** ** Sorting and the displayed lists *)

Section Display.

Variable localeCompare : str → str → Z.

Implicit Types (s : gset str) (h : str) (st : AppState).

Lemma toSorted_Permutation s : toSorted localeCompare s ≡ₚ elements s.
Proof. unfold toSorted. apply merge_sort_Permutation. Qed.

Lemma elem_of_toSorted h s : h ∈ toSorted localeCompare s ↔ h ∈ s.
Proof. by rewrite toSorted_Permutation, elem_of_elements. Qed.

Lemma NoDup_toSorted s : NoDup (toSorted localeCompare s).
Proof. rewrite toSorted_Permutation. apply NoDup_elements. Qed.

Lemma length_toSorted s : length (toSorted localeCompare s) = size s.
Proof. by rewrite toSorted_Permutation. Qed.

Lemma toSorted_empty : toSorted localeCompare ∅ = [].
Proof. unfold toSorted. by rewrite elements_empty. Qed.

Lemma list_to_set_toSorted s : list_to_set (toSorted localeCompare s) = s.
Proof.
  apply set_eq. intros h. by rewrite elem_of_list_to_set, elem_of_toSorted.
Qed.

End Display.

Lemma elem_of_filterList (b : bool) (h : str) (items : list str) :
  h ∈ filterList b items ↔ h ∈ items ∧ (b = true → looksLikeOrg h = false).
Proof.
  unfold filterList. destruct b.
  - rewrite !list_elem_of_In, filter_In, negb_true_iff. naive_solver.
  - naive_solver.
Qed.

Lemma NoDup_filterList (b : bool) (items : list str) :
  NoDup items → NoDup (filterList b items).
Proof.
  unfold filterList. destruct b; [|done].
  rewrite !NoDup_ListNoDup. apply List.NoDup_filter.
Qed.

Lemma length_filterList (b : bool) (items : list str) :
  (length (filterList b items) ≤ length items)%nat.
Proof. unfold filterList. destruct b; [apply filter_length_le|done]. Qed.

(** X11.  [toSorted] lists a set: every element once, nothing else, whatever the
    comparator does. *)
Theorem toSorted_lists_the_set (localeCompare : str → str → Z) (s : gset str) :
  NoDup (toSorted localeCompare s)
  ∧ (∀ h, h ∈ toSorted localeCompare s ↔ h ∈ s)
  ∧ length (toSorted localeCompare s) = size s
  ∧ list_to_set (toSorted localeCompare s) = s.
Proof.
  split; [apply NoDup_toSorted|].
  split; [intros h; apply elem_of_toSorted|].
  split; [apply length_toSorted|apply list_to_set_toSorted].
Qed.

(** X12.  When the comparator orders any two strings and does so transitively, the
    list is in order: every entry comes first against all later ones. *)
Theorem toSorted_in_order (localeCompare : str → str → Z) (s : gset str) :
  (∀ x y, comesFirst localeCompare x y ∨ comesFirst localeCompare y x) →
  (∀ x y z, comesFirst localeCompare x y → comesFirst localeCompare y z →
            comesFirst localeCompare x z) →
  StronglySorted (comesFirst localeCompare) (toSorted localeCompare s).
Proof.
  intros Htotal Htrans. unfold toSorted.
  apply (StronglySorted_merge_sort (comesFirst localeCompare)
           (Transitive0 := Htrans) (Total0 := Htotal)).
Qed.

Lemma toSorted_in_order_witness :
  (∀ x y, comesFirst byLength x y ∨ comesFirst byLength y x)
  ∧ (∀ x y z, comesFirst byLength x y → comesFirst byLength y z →
              comesFirst byLength x z)
  ∧ StronglySorted (comesFirst byLength)
      (toSorted byLength {[ lit "carol"; lit "bob"; lit "al.ice" ]}).
Proof.
  assert (∀ x y, comesFirst byLength x y ∨ comesFirst byLength y x) as H1
    by (intros x y; unfold comesFirst, byLength; lia).
  assert (∀ x y z, comesFirst byLength x y → comesFirst byLength y z →
                   comesFirst byLength x z) as H2
    by (intros x y z; unfold comesFirst, byLength; lia).
  exact (conj H1 (conj H2 (toSorted_in_order byLength _ H1 H2))).
Defined.

(** X13.  Pasting a sorted list of extracted handles back into a text area, one
    per line, extracts to the same set. *)
Theorem extractHandles_of_its_own_listing
  (localeCompare : str → str → Z) (raw : str) :
  extractHandles (join [LF] (toSorted localeCompare (extractHandles raw)))
  = extractHandles raw.
Proof.
  assert (Forall (λ h, matchesHandlePattern h = true)
            (toSorted localeCompare (extractHandles raw))) as Hall.
  { apply Forall_forall. intros h Hh%elem_of_toSorted.
    apply elem_of_extractHandles in Hh as (line & _ & Hacc).
    by eapply classifyLine_pattern. }
  unfold extractHandles at 1.
  rewrite trimmedLines_join_handles, foldl_processLine_handles by auto.
  rewrite list_to_set_toSorted. set_solver.
Qed.

(** ** What one render shows *)

Lemma elem_of_nonFollowersArr localeCompare st h :
  h ∈ nonFollowersArr (render localeCompare st) ↔
  h ∈ extractHandles (followingText st)
  ∧ (h ∉ extractHandles (followersText st))
  ∧ (filterPeopleOnly st = true → looksLikeOrg h = false).
Proof.
  simpl. rewrite elem_of_filterList, (elem_of_toSorted localeCompare), elem_of_nonFollowersOf.
  tauto.
Qed.

Lemma elem_of_followersOnlyArr localeCompare st h :
  h ∈ followersOnlyArr (render localeCompare st) ↔
  h ∈ extractHandles (followersText st)
  ∧ (h ∉ extractHandles (followingText st))
  ∧ (filterPeopleOnly st = true → looksLikeOrg h = false).
Proof.
  simpl. rewrite elem_of_filterList, (elem_of_toSorted localeCompare), elem_of_followersOnlyOf.
  tauto.
Qed.

Lemma elem_of_mutualsArr localeCompare st h :
  h ∈ mutualsArr (render localeCompare st) ↔
  h ∈ extractHandles (followingText st)
  ∧ h ∈ extractHandles (followersText st)
  ∧ (filterPeopleOnly st = true → looksLikeOrg h = false).
Proof.
  simpl. rewrite elem_of_filterList, (elem_of_toSorted localeCompare), elem_of_mutualsOf.
  tauto.
Qed.

Lemma extractHandles_pattern raw h :
  h ∈ extractHandles raw → matchesHandlePattern h = true.
Proof.
  intros (line & _ & Hacc)%elem_of_extractHandles.
  by eapply classifyLine_pattern.
Qed.

(** X14.  The three displayed lists of any render: no list repeats a handle, no
    handle stands in two of them, and each holds exactly the handles of its
    comparison set that pass the org filter when the box is ticked. *)
Theorem displayed_lists_are_disjoint_listings
  (localeCompare : str → str → Z) (st : AppState) :
  let r := render localeCompare st in
  (NoDup (nonFollowersArr r) ∧ NoDup (followersOnlyArr r)
   ∧ NoDup (mutualsArr r))
  ∧ (∀ h, ¬ (h ∈ nonFollowersArr r ∧ h ∈ followersOnlyArr r)
          ∧ ¬ (h ∈ nonFollowersArr r ∧ h ∈ mutualsArr r)
          ∧ ¬ (h ∈ followersOnlyArr r ∧ h ∈ mutualsArr r))
  ∧ (∀ h, h ∈ nonFollowersArr r ↔
          h ∈ nonFollowers (memo r)
          ∧ (filterPeopleOnly st = true → looksLikeOrg h = false))
  ∧ (∀ h, h ∈ followersOnlyArr r ↔
          h ∈ followersOnly (memo r)
          ∧ (filterPeopleOnly st = true → looksLikeOrg h = false))
  ∧ (∀ h, h ∈ mutualsArr r ↔
          h ∈ mutuals (memo r)
          ∧ (filterPeopleOnly st = true → looksLikeOrg h = false)).
Proof.
  intros r. split; [|split].
  - repeat split; apply NoDup_filterList, NoDup_toSorted.
  - intros h. subst r.
    rewrite elem_of_nonFollowersArr, elem_of_followersOnlyArr,
      elem_of_mutualsArr. tauto.
  - subst r. simpl.
    split; [|split]; intros h;
      rewrite elem_of_filterList, (elem_of_toSorted localeCompare); tauto.
Qed.

(** X15.  Every handle on the page, in the two input lists and in the three
    columns, matches [^[a-z0-9._]{3,30}$]. *)
Theorem displayed_handles_match_pattern
  (localeCompare : str → str → Z) (st : AppState) :
  let r := render localeCompare st in
  Forall (λ h, matchesHandlePattern h = true)
    (followingArr r ++ followersArr r ++ nonFollowersArr r
     ++ followersOnlyArr r ++ mutualsArr r).
Proof.
  intros r. rewrite !Forall_app. subst r.
  repeat split; apply Forall_forall; intros h.
  - simpl. rewrite (elem_of_toSorted localeCompare). apply extractHandles_pattern.
  - simpl. rewrite (elem_of_toSorted localeCompare). apply extractHandles_pattern.
  - rewrite elem_of_nonFollowersArr. intros (Hh & _). by eapply extractHandles_pattern.
  - rewrite elem_of_followersOnlyArr. intros (Hh & _). by eapply extractHandles_pattern.
  - rewrite elem_of_mutualsArr. intros (Hh & _). by eapply extractHandles_pattern.
Qed.

Lemma size_split_by (A B : gset str) :
  size A = (size (nonFollowersOf A B) + size (mutualsOf A B))%nat.
Proof.
  rewrite <- size_union.
  - f_equal. apply set_eq. intros h.
    rewrite elem_of_union, elem_of_nonFollowersOf, elem_of_mutualsOf.
    destruct (decide (h ∈ B)); tauto.
  - intros h. rewrite elem_of_nonFollowersOf, elem_of_mutualsOf. tauto.
Qed.

Lemma size_split_by' (A B : gset str) :
  size B = (size (followersOnlyOf A B) + size (mutualsOf A B))%nat.
Proof.
  rewrite <- size_union.
  - f_equal. apply set_eq. intros h.
    rewrite elem_of_union, elem_of_followersOnlyOf, elem_of_mutualsOf.
    destruct (decide (h ∈ A)); tauto.
  - intros h. rewrite elem_of_followersOnlyOf, elem_of_mutualsOf. tauto.
Qed.

(** X16.  The numbers of the pills.  With the box unticked, Following is
    Non-followers plus Mutuals and Followers is Followers-only plus Mutuals;
    ticking the box leaves the first two numbers alone and can only lower
    the other three. *)
Theorem counts_add_up (localeCompare : str → str → Z) (ft fr : str) (b : bool) :
  let off := render localeCompare
               {| followingText := ft; followersText := fr;
                  filterPeopleOnly := false |} in
  let r := render localeCompare
             {| followingText := ft; followersText := fr;
                filterPeopleOnly := b |} in
  (length (followingArr off)
   = length (nonFollowersArr off) + length (mutualsArr off))%nat
  ∧ (length (followersArr off)
     = length (followersOnlyArr off) + length (mutualsArr off))%nat
  ∧ length (followingArr off) = size (extractHandles ft)
  ∧ length (followersArr off) = size (extractHandles fr)
  ∧ length (followingArr r) = length (followingArr off)
  ∧ length (followersArr r) = length (followersArr off)
  ∧ (length (nonFollowersArr r) ≤ length (nonFollowersArr off))%nat
  ∧ (length (followersOnlyArr r) ≤ length (followersOnlyArr off))%nat
  ∧ (length (mutualsArr r) ≤ length (mutualsArr off))%nat.
Proof.
  simpl. rewrite !length_toSorted.
  split; [apply size_split_by|]. split; [apply size_split_by'|].
  repeat split;
    rewrite <- (length_toSorted localeCompare); apply length_filterList.
Qed.

Lemma displayed_handles_pattern_aux
  (localeCompare : str → str → Z) (st : AppState) (h : str) :
  h ∈ nonFollowersArr (render localeCompare st)
      ++ followersOnlyArr (render localeCompare st)
      ++ mutualsArr (render localeCompare st) →
  matchesHandlePattern h = true.
Proof.
  rewrite !elem_of_app, elem_of_nonFollowersArr, elem_of_followersOnlyArr,
    elem_of_mutualsArr.
  intros [(Hh & _)|[(Hh & _)|(Hh & _)]]; by eapply extractHandles_pattern.
Qed.

(** ** Clear and the columns *)

Lemma comparison_of_empty :
  nonFollowersOf ∅ ∅ = ∅ ∧ followersOnlyOf ∅ ∅ = ∅ ∧ mutualsOf ∅ ∅ = ∅.
Proof.
  repeat split; apply set_eq; intros h;
    rewrite ?elem_of_nonFollowersOf, ?elem_of_followersOnlyOf,
      ?elem_of_mutualsOf, elem_of_empty; tauto.
Qed.

Lemma filterList_nil (b : bool) : filterList b [] = [].
Proof. by destruct b. Qed.

(** X17.  Clear, pressed in any state, keeps the tick of the box, empties both
    texts, and the next render has five empty sets, five zero counts, three
    columns saying that there are no items, and an export that is the header
    line alone. *)
Theorem clear_empties_the_page (localeCompare : str → str → Z) (st : AppState) :
  let st' := handleEvent st ClickClear in
  let r := render localeCompare st' in
  filterPeopleOnly st' = filterPeopleOnly st
  ∧ followingText st' = [] ∧ followersText st' = []
  ∧ memo r = {| following := ∅; followers := ∅; nonFollowers := ∅;
                followersOnly := ∅; mutuals := ∅ |}
  ∧ counts r = [0; 0; 0; 0; 0]%nat
  ∧ Forall (λ c, colBody c = NoItems ∧ colCount c = 0%nat) (columns r)
  ∧ exportedRows r = [csvHeader]
  ∧ blobText (exportCSV localeCompare st') = headerText.
Proof.
  destruct comparison_of_empty as (Hnf & Hfo & Hmu).
  assert (extractHandles [] = ∅) as He by reflexivity.
  cbv zeta. unfold exportCSV, exportedRows, counts, columns, render, useMemo.
  simpl. rewrite !He, Hnf, Hfo, Hmu, !toSorted_empty, !filterList_nil.
  repeat split; try reflexivity. repeat constructor.
Qed.

Lemma columnKeys_Column (title : str) (items : list str) :
  columnKeys (Column title items) = items.
Proof.
  unfold columnKeys, Column. simpl.
  destruct items as [|h r]; simpl; [done|].
  f_equal. rewrite map_map. simpl. apply map_id.
Qed.

(** X18.  A [Column] shows its items in order, one entry per item, with the handle
    as key and the handle after an [@] as text; its badge is their number,
    and it says that there are no items exactly when there are none.  In any
    render the keys under each of the three columns are pairwise different. *)
Theorem column_shows_each_handle_once
  (localeCompare : str → str → Z) (st : AppState) :
  (∀ title items,
     columnKeys (Column title items) = items
     ∧ colCount (Column title items) = length items
     ∧ (colBody (Column title items) = NoItems ↔ items = [])
     ∧ ∀ lis, colBody (Column title items) = ItemList lis →
              Forall (λ li, liText li = AT :: liKey li) lis
              ∧ length lis = length items)
  ∧ let r := render localeCompare st in
    map columnKeys (columns r)
    = [nonFollowersArr r; followersOnlyArr r; mutualsArr r]
    ∧ Forall (λ c, NoDup (columnKeys c)) (columns r).
Proof.
  split.
  - intros title items. split; [apply columnKeys_Column|]. split; [done|].
    unfold Column; simpl. destruct items as [|h r]; simpl.
    + split; [done|]. intros lis [=].
    + split; [split; intros [=]|]. intros lis [= <-].
      split; [|simpl; by rewrite length_map].
      constructor; [done|]. apply Forall_forall.
      by intros li (x & -> & _)%list_elem_of_fmap.
  - cbv zeta. unfold columns. split.
    + simpl map. by rewrite !columnKeys_Column.
    + repeat constructor; rewrite columnKeys_Column;
        apply NoDup_filterList, NoDup_toSorted.
Qed.

(** ** The exported file *)

Lemma splitLines_join_LF (ls : list str) :
  ls ≠ [] → Forall (λ l, (LF ∉ l) ∧ chompCR l = l) ls →
  splitLines (join [LF] ls) = ls.
Proof.
  intros Hne Hall. induction Hall as [|l ls [Hlf Hcr] Hls IH]; [done|].
  destruct ls as [|l' ls'].
  - by apply splitLines_no_LF.
  - change (join [LF] (l :: l' :: ls')) with (l ++ LF :: join [LF] (l' :: ls')).
    rewrite splitLines_app_LF, splitLines_no_LF, IH by done.
    simpl. by rewrite Hcr.
Qed.

Lemma elem_of_doubleQuotes (u : N) (c : str) : u ∈ doubleQuotes c → u ∈ c.
Proof.
  unfold doubleQuotes. rewrite !list_elem_of_In, in_flat_map.
  intros (x & Hx & Hu). destruct (N.eqb_spec x QUOTE) as [->|_].
  - simpl in Hu. by destruct Hu as [<-|[<-|[]]].
  - simpl in Hu. by destruct Hu as [<-|[]].
Qed.

Lemma quoteField_no_LF (c : str) : LF ∉ c → LF ∉ quoteField c.
Proof.
  intros Hc. unfold quoteField.
  rewrite !not_elem_of_app, !not_elem_of_cons.
  repeat split; try done; try apply not_elem_of_nil.
  by intros ?%elem_of_doubleQuotes.
Qed.

Lemma csvLine_no_LF (r : list str) : Forall (λ c, LF ∉ c) r → LF ∉ csvLine r.
Proof.
  unfold csvLine. induction 1 as [|c r Hc Hr IH]; [apply not_elem_of_nil|].
  destruct r as [|c' r'].
  - by apply quoteField_no_LF.
  - change (join [COMMA] (map quoteField (c :: c' :: r')))
      with (quoteField c ++ [COMMA] ++ join [COMMA] (map quoteField (c' :: r'))).
    rewrite !not_elem_of_app, not_elem_of_cons.
    split; [by apply quoteField_no_LF|].
    split; [|done]. split; [done|apply not_elem_of_nil].
Qed.

Lemma csvLine_ends_with_quote (r : list str) :
  r ≠ [] → ∃ q, csvLine r = q ++ [QUOTE].
Proof.
  unfold csvLine. induction r as [|c [|c' r'] IH]; [done| |]; intros _.
  - exists (QUOTE :: doubleQuotes c). done.
  - destruct IH as [q Hq]; [done|].
    exists (quoteField c ++ [COMMA] ++ q).
    change (join [COMMA] (map quoteField (c :: c' :: r')))
      with (quoteField c ++ [COMMA] ++ join [COMMA] (map quoteField (c' :: r'))).
    by rewrite Hq, <- !app_assoc.
Qed.

Lemma chompCR_csvLine (r : list str) : chompCR (csvLine r) = csvLine r.
Proof.
  destruct r as [|c r']; [done|].
  destruct (csvLine_ends_with_quote (c :: r')) as [q ->]; [done|].
  by rewrite chompCR_snoc.
Qed.

(** X19.  Reading the text of [downloadCSV] line by line gives back one line per
    row, provided no field holds a LF: quotes and commas inside fields never
    break a line, and the first row is never lost. *)
Theorem csv_text_has_one_line_per_row (rows : list (list str)) :
  rows ≠ [] →
  Forall (Forall (λ c, LF ∉ c)) rows →
  splitLines (csvText rows) = map csvLine rows
  ∧ length (splitLines (csvText rows)) = length rows.
Proof.
  intros Hne Hall.
  assert (splitLines (csvText rows) = map csvLine rows) as Hs.
  { unfold csvText. apply splitLines_join_LF.
    - by destruct rows.
    - apply Forall_forall. intros l (r & -> & Hr)%list_elem_of_fmap.
      split; [|apply chompCR_csvLine].
      apply csvLine_no_LF. rewrite Forall_forall in Hall. auto. }
  split; [done|]. by rewrite Hs, length_map.
Qed.

Lemma csv_text_has_one_line_per_row_witness :
  sampleRows ≠ []
  ∧ Forall (Forall (λ c, LF ∉ c)) sampleRows
  ∧ (splitLines (csvText sampleRows) = map csvLine sampleRows
     ∧ length (splitLines (csvText sampleRows)) = length sampleRows).
Proof.
  assert (sampleRows ≠ []) as H1 by discriminate.
  assert (Forall (Forall (λ c, LF ∉ c)) sampleRows) as H2.
  { repeat constructor;
      intros Hin%list_elem_of_In; simpl in Hin; intuition discriminate. }
  exact (conj H1 (conj H2 (csv_text_has_one_line_per_row _ H1 H2))).
Defined.

Lemma orEmpty_cases (arr : list str) (i : nat) :
  orEmpty arr i = [] ∨ orEmpty arr i ∈ arr.
Proof.
  unfold orEmpty. destruct (arr !! i) as [x|] eqn:Hx.
  - right. simpl. by eapply list_elem_of_lookup_2.
  - by left.
Qed.

Lemma exportRows_fields (nf fo mu : list str) :
  Forall (Forall (λ f, f = [] ∨ f ∈ nf ++ fo ++ mu))
    (tail (exportRows nf fo mu)).
Proof.
  unfold exportRows. simpl. apply Forall_forall.
  intros row (i & -> & _)%list_elem_of_fmap.
  constructor; [|constructor; [|constructor; [|constructor]]].
  - destruct (orEmpty_cases nf i); [by left|right]. rewrite !elem_of_app. auto.
  - destruct (orEmpty_cases fo i); [by left|right]. rewrite !elem_of_app. auto.
  - destruct (orEmpty_cases mu i); [by left|right]. rewrite !elem_of_app. auto.
Qed.

Lemma looksLikeOrg_empty : looksLikeOrg [] = false.
Proof. reflexivity. Qed.

(** X20.  The export follows the page.  Its rows after the header hold nothing but
    displayed handles and padding; with the box ticked no exported field
    looks like an org; and in every state the file reads back as the header
    line followed by one line per data row, as many as the longest displayed
    column has entries. *)
Theorem export_follows_the_page
  (localeCompare : str → str → Z) (ft fr : str) (b : bool) :
  let r := render localeCompare
             {| followingText := ft; followersText := fr;
                filterPeopleOnly := b |} in
  let on := render localeCompare
              {| followingText := ft; followersText := fr;
                 filterPeopleOnly := true |} in
  Forall (Forall (λ f, f = []
                       ∨ f ∈ nonFollowersArr r ++ followersOnlyArr r
                             ++ mutualsArr r))
    (tail (exportedRows r))
  ∧ Forall (Forall (λ f, looksLikeOrg f = false)) (tail (exportedRows on))
  ∧ splitLines
      (blobText (exportCSV localeCompare
                   {| followingText := ft; followersText := fr;
                      filterPeopleOnly := b |}))
    = headerText :: map csvLine (tail (exportedRows r))
  ∧ length (tail (exportedRows r))
    = Nat.max (Nat.max (length (nonFollowersArr r))
                       (length (followersOnlyArr r)))
              (length (mutualsArr r)).
Proof.
  intros r on.
  assert (∀ x : Rendered,
            Forall (Forall (λ f, f = []
                                 ∨ f ∈ nonFollowersArr x ++ followersOnlyArr x
                                       ++ mutualsArr x))
              (tail (exportedRows x))) as Hfields
    by (intros x; apply exportRows_fields).
  split; [apply Hfields|]. split; [|split].
  - eapply Forall_impl; [apply (Hfields on)|]. intros row Hrow.
    eapply Forall_impl; [apply Hrow|]. intros f [->|Hf]; [done|].
    rewrite !elem_of_app in Hf. subst on.
    rewrite elem_of_nonFollowersArr, elem_of_followersOnlyArr,
      elem_of_mutualsArr in Hf. simpl in Hf. naive_solver.
  - change (blobText (exportCSV localeCompare _))
      with (csvText (exportedRows r)).
    assert (exportedRows r = csvHeader :: tail (exportedRows r)) as Hrows
      by done.
    rewrite Hrows at 1.
    assert (splitLines (csvText (csvHeader :: tail (exportedRows r)))
            = map csvLine (csvHeader :: tail (exportedRows r))) as ->; [|done].
    unfold csvText. apply splitLines_join_LF; [done|].
    apply Forall_forall. intros l (row & -> & Hrow)%list_elem_of_fmap.
    split; [|apply chompCR_csvLine]. apply csvLine_no_LF.
    apply elem_of_cons in Hrow as [->|Hrow].
    + repeat constructor;
        intros Hin%list_elem_of_In; vm_compute in Hin; intuition discriminate.
    + pose proof (Hfields r) as Hall. rewrite Forall_forall in Hall.
      eapply Forall_impl; [apply (Hall row Hrow)|].
      intros f [->|Hf]; [apply not_elem_of_nil|].
      apply handle_no_LF.
      pose proof (displayed_handles_pattern_aux localeCompare
                    {| followingText := ft; followersText := fr;
                       filterPeopleOnly := b |} f Hf) as Hp.
      by apply matchesHandlePattern_true in Hp as [? _].
  - unfold exportedRows, exportRows. simpl. by rewrite length_map, length_seq.
Qed.

(** ** The comparison loops as set operations *)

(** X21.  The three [forEach] loops compute set difference, its mirror and
    intersection.  Hence an empty Followers set makes everybody a
    non-follower, an empty Following set makes everybody followers-only, and
    a set compared with itself is all mutuals. *)
Theorem comparison_is_difference_and_intersection (A B : gset str) :
  nonFollowersOf A B = A ∖ B
  ∧ followersOnlyOf A B = B ∖ A
  ∧ mutualsOf A B = A ∩ B
  ∧ (nonFollowersOf A ∅ = A ∧ followersOnlyOf A ∅ = ∅ ∧ mutualsOf A ∅ = ∅)
  ∧ (nonFollowersOf ∅ B = ∅ ∧ followersOnlyOf ∅ B = B ∧ mutualsOf ∅ B = ∅)
  ∧ (nonFollowersOf A A = ∅ ∧ followersOnlyOf A A = ∅ ∧ mutualsOf A A = A).
Proof.
  repeat split; apply set_eq; intros h;
    rewrite ?elem_of_nonFollowersOf, ?elem_of_followersOnlyOf,
      ?elem_of_mutualsOf, ?elem_of_difference, ?elem_of_intersection,
      ?elem_of_empty; tauto.
Qed.

(** ** The first token *)

(** X9.  [line.split(/[^a-zA-Z0-9._]+/)[0] || ''] is the longest beginning of the
    line made of units of [[a-zA-Z0-9._]]: the line is this token followed
    by nothing or by something that starts outside the class. *)
Theorem first_token_is_longest_prefix (line : str) :
  ∃ rest, line = firstToken line ++ rest
    ∧ forallb isTokenChar (firstToken line) = true
    ∧ (rest = [] ∨ ∃ c r, rest = c :: r ∧ isTokenChar c = false).
Proof. apply firstToken_prefix. Qed.

(** ** Counting the pieces of [split] *)

Lemma length_consHead (c : N) (ps : list str) :
  ps ≠ [] → length (consHead c ps) = length ps.
Proof. by destruct ps. Qed.

(** X10.  [raw.split(/\r?\n/)] has one piece more than [raw] has LFs, and no piece
    holds a LF; so the callback runs at most that many times. *)
Theorem split_has_one_piece_per_LF (raw : str) :
  length (splitLines raw) = S (length (List.filter (λ c, c =? LF) raw))
  ∧ Forall (λ p, LF ∉ p) (splitLines raw)
  ∧ (length (trimmedLines raw)
     ≤ S (length (List.filter (λ c, (c =? LF)%N) raw)))%nat.
Proof.
  assert (length (splitLines raw)
          = S (length (List.filter (λ c, c =? LF) raw))) as Hlen.
  { induction raw as [|c r IH]; [done|]. simpl.
    destruct (N.eqb_spec c LF) as [->|Hc]; simpl; [by rewrite IH|].
    destruct (N.eqb_spec c CR) as [->|Hcr]; simpl.
    - destruct (startsWithLF r); [done|].
      by rewrite length_consHead by apply splitLines_nonempty.
    - by rewrite length_consHead by apply splitLines_nonempty. }
  split; [done|]. split; [apply splitLines_pieces_no_LF|].
  rewrite <- Hlen. unfold trimmedLines.
  etransitivity; [apply filter_length_le|]. by rewrite length_map.
Qed.

(** ** The org heuristic on longer handles *)

(** X22.  Decorating a handle cannot hide it from the heuristic: a handle that
    contains one flagged by [looksLikeOrg] is flagged as well. *)
Theorem looksLikeOrg_of_longer_handle (h h' : str) :
  occursIn h h' → looksLikeOrg h = true → looksLikeOrg h' = true.
Proof.
  intros (pre & post & ->) (k & Hk & (pre' & post' & ->))%looksLikeOrg_true.
  apply looksLikeOrg_true. exists k. split; [done|].
  exists (pre ++ pre'), (post' ++ post). by rewrite <- !app_assoc.
Qed.

Lemma looksLikeOrg_of_longer_handle_witness :
  occursIn (lit "bookclub") (lit "the.bookclub_99")
  ∧ looksLikeOrg (lit "bookclub") = true
  ∧ looksLikeOrg (lit "the.bookclub_99") = true.
Proof.
  assert (occursIn (lit "bookclub") (lit "the.bookclub_99")) as H1
    by (by exists (lit "the."), (lit "_99")).
  assert (looksLikeOrg (lit "bookclub") = true) as H2 by reflexivity.
  exact (conj H1 (conj H2 (looksLikeOrg_of_longer_handle _ _ H1 H2))).
Defined.
